(** * Verification of [faust.tables.manager.TableManager]

    A shallow embedding of [src/faust/tables/manager.py].  The manager is a
    record of its attributes; every method is a program in a small monad
    that threads the manager, a fresh-object counter and the trace of the
    calls made on the collaborators (tables, consumer, fetcher, recovery
    coordinator, topic registry, event loop), and that can raise.

    The environment is a parameter: which collaborator call raises, what
    [consumer.assignment()] answers and what the event loop schedules next
    are all given by oracles over the history of the run.

    A method is followed from its first statement to its return or to the
    exception that leaves it.  What other coroutines do while it is
    suspended at an [await] is not part of the model, except for the
    recovered callbacks, which [asyncio.wait] runs inside
    [on_recovery_completed]. *)

From stdpp Require Import gmap strings list fin_maps.

(** ** Data model *)

(** [faust.types.TP]: the named tuple [(topic, partition)]. *)
Definition TP : Type := string * Z.
Definition topic (tp : TP) : string := tp.1.
Definition partition (tp : TP) : Z := tp.2.

(** References to objects built while the manager runs (queue, recovery
    coordinator, channels): the n-th object constructed has reference n. *)
Definition ObjRef : Type := nat.

(** A changelog topic descriptor; only its name is read by the manager. *)
Record TopicT : Type := mkTopic { get_topic_name : string }.

(** A table ([CollectionT]).  [table_id] is the identity of the Python
    object (tables hash and compare by identity); [name] may be [None],
    which is what [add] asserts against. *)
Record Table : Type := mkTable {
  table_id : ObjRef;
  name : option string;
  changelog_topic : TopicT;
}.

#[global] Instance TopicT_eq_dec : EqDecision TopicT.
Proof. solve_decision. Defined.

#[global] Instance Table_eq_dec : EqDecision Table.
Proof. solve_decision. Defined.

#[global] Instance Table_countable : Countable Table.
Proof.
  refine (inj_countable'
    (λ t, (table_id t, name t, get_topic_name (changelog_topic t)))
    (λ p, mkTable p.1.1 p.1.2 (mkTopic p.2)) _).
  by intros [? ? []].
Defined.

(** The coroutine object returned by [table.call_recover_callbacks()];
    creating it runs nothing. *)
Inductive Coro : Type :=
  | call_recover_callbacks (table : Table).

Definition coro_table (c : Coro) : Table :=
  match c with call_recover_callbacks t => t end.

(** ** Observable events

    One event per call the manager makes on a collaborator, recorded when
    the call has returned, and one per change of a flag that other
    components observe.  [Raised e] records that the call [e] was made and
    raised instead of returning. *)
Inductive Event : Type :=
  | Sleep
  | FlowControlQueue (q : ObjRef)
  | NewRecovery (r : ObjRef)
  | CloneUsingQueue (table : Table) (q : ObjRef) (chan : ObjRef)
  | TopicsAdd (chan : ObjRef)
  | MaybeStart (table : Table)
  | Assignment (tps : gset TP)
  | PausePartitions (tps : gset TP)
  | ResumePartitions (tps : gset TP)
  | PerformSeek
  | FetcherStop
  | FetcherMaybeStart
  | RecoveryStart (r : ObjRef)
  | RecoveryStop (r : ObjRef)
  | RecoveryOnRebalance (r : ObjRef) (assigned revoked newly_assigned : gset TP)
  | TableStop (table : Table)
  | PartitionsRevoked (table : Table) (tps : gset TP)
  | PartitionsAssigned (table : Table) (tps : gset TP)
  | CallbackStart (table : Table)
  | CallbackDone (table : Table)
  | SetRecoveryStarted
  | SetRecoveryCompleted
  | SetRebalancing (b : bool)
  | LogInfo (msg : string)
  | Raised (e : Event).

(** ** Exceptions *)
Inductive Exn : Type :=
  | TooLateToAddTables            (* RuntimeError, [add] after a rebalance *)
  | TableAlreadyExists (n : string) (* ValueError, duplicate name in [add] *)
  | AssertionError                (* [assert table.name is not None] *)
  | EmptyWaitSet                  (* ValueError of [asyncio.wait] on no futures *)
  | CollaboratorError (e : Event). (* whatever the collaborator call [e] raised *)

Inductive Outcome (A : Type) : Type :=
  | Ok (a : A)
  | Raise (x : Exn).
Arguments Ok {A} a.
Arguments Raise {A} x.

(** ** The manager *)

(** The attributes of [TableManager].  [data] is the dict behind
    [FastUserDict], kept in insertion order as Python dicts are.
    [_standbys] is initialised and never read or written again; it is left
    out.  [app.rebalancing] belongs to the application and shows as the
    event [SetRebalancing]. *)
Record TableManager : Type := mkTableManager {
  data : list (string * Table);
  _changelog_queue : option ObjRef;
  _channels : gmap Table ObjRef;
  _changelogs : gmap string Table;
  _recovery_started : bool;
  recovery_completed : bool;
  _recovery : option ObjRef;
}.

(** [TableManager.__init__]. *)
Definition __init__ : TableManager :=
  {| data := [];
     _changelog_queue := None;
     _channels := ∅;
     _changelogs := ∅;
     _recovery_started := false;
     recovery_completed := false;
     _recovery := None |}.

Definition set_data (d : list (string * Table)) (m : TableManager) :=
  {| data := d; _changelog_queue := _changelog_queue m;
     _channels := _channels m; _changelogs := _changelogs m;
     _recovery_started := _recovery_started m;
     recovery_completed := recovery_completed m; _recovery := _recovery m |}.

Definition set_changelog_queue (q : option ObjRef) (m : TableManager) :=
  {| data := data m; _changelog_queue := q;
     _channels := _channels m; _changelogs := _changelogs m;
     _recovery_started := _recovery_started m;
     recovery_completed := recovery_completed m; _recovery := _recovery m |}.

Definition set_channels (c : gmap Table ObjRef) (m : TableManager) :=
  {| data := data m; _changelog_queue := _changelog_queue m;
     _channels := c; _changelogs := _changelogs m;
     _recovery_started := _recovery_started m;
     recovery_completed := recovery_completed m; _recovery := _recovery m |}.

Definition set_changelogs (c : gmap string Table) (m : TableManager) :=
  {| data := data m; _changelog_queue := _changelog_queue m;
     _channels := _channels m; _changelogs := c;
     _recovery_started := _recovery_started m;
     recovery_completed := recovery_completed m; _recovery := _recovery m |}.

Definition set_recovery_started (b : bool) (m : TableManager) :=
  {| data := data m; _changelog_queue := _changelog_queue m;
     _channels := _channels m; _changelogs := _changelogs m;
     _recovery_started := b;
     recovery_completed := recovery_completed m; _recovery := _recovery m |}.

Definition set_recovery_completed (b : bool) (m : TableManager) :=
  {| data := data m; _changelog_queue := _changelog_queue m;
     _channels := _channels m; _changelogs := _changelogs m;
     _recovery_started := _recovery_started m;
     recovery_completed := b; _recovery := _recovery m |}.

Definition set_recovery (r : option ObjRef) (m : TableManager) :=
  {| data := data m; _changelog_queue := _changelog_queue m;
     _channels := _channels m; _changelogs := _changelogs m;
     _recovery_started := _recovery_started m;
     recovery_completed := recovery_completed m; _recovery := r |}.

(** Dict operations on [data]. *)
Definition dict_contains (k : string) (d : list (string * Table)) : bool :=
  bool_decide (k ∈ d.*1).

(** [d[k] = v]: an existing key keeps its place, a new one goes last. *)
Fixpoint dict_setitem (k : string) (v : Table) (d : list (string * Table))
  : list (string * Table) :=
  match d with
  | [] => [(k, v)]
  | (k', v') :: d' =>
      if decide (k = k') then (k', v) :: d' else (k', v') :: dict_setitem k v d'
  end.

(** [self.values()]. *)
Definition values (m : TableManager) : list Table := (data m).*2.

(** The [changelog_topics] property: [set(self._changelogs.keys())]. *)
Definition changelog_topics (m : TableManager) : gset string :=
  dom (_changelogs m).

(** [_is_changelog_tp]. *)
Definition _is_changelog_tp (m : TableManager) (tp : TP) : bool :=
  bool_decide (topic tp ∈ changelog_topics m).

(** ** The world and the monad *)

Record World : Type := mkWorld {
  self : TableManager;
  trace : list Event;
  next_ref : ObjRef;
}.

Definition M (A : Type) : Type := World → Outcome A * World.

#[global] Instance M_ret : MRet M := λ A a w, (Ok a, w).
#[global] Instance M_bind : MBind M := λ A B f p w,
  match p w with
  | (Ok a, w') => f a w'
  | (Raise x, w') => (Raise x, w')
  end.

Definition raise {A} (x : Exn) : M A := λ w, (Raise x, w).

Definition gets {A} (f : TableManager → A) : M A := λ w, (Ok (f (self w)), w).

Definition modify (f : TableManager → TableManager) : M unit := λ w,
  (Ok tt, {| self := f (self w); trace := trace w; next_ref := next_ref w |}).

Definition record (e : Event) (w : World) : World :=
  {| self := self w; trace := trace w ++ [e]; next_ref := next_ref w |}.

(** A step of the manager itself that others can observe; it cannot fail. *)
Definition emit (e : Event) : M unit := λ w, (Ok tt, record e w).

(** A fresh object reference. *)
Definition fresh : M ObjRef := λ w,
  (Ok (next_ref w),
   {| self := self w; trace := trace w; next_ref := S (next_ref w) |}).

Fixpoint for_each {A} (xs : list A) (body : A → M unit) : M unit :=
  match xs with
  | [] => mret tt
  | x :: xs' => body x;; for_each xs' body
  end.

(** The environment of a run. *)
Record Env : Type := mkEnv {
  (** does this collaborator call raise, after this history? *)
  raises : list Event → Event → bool;
  (** what [consumer.assignment()] answers after this history *)
  consumer_assignment : list Event → gset TP;
  (** which of the unfinished tasks the event loop advances next *)
  schedule : list Event → nat;
}.

(** The environment in which no collaborator raises. *)
Definition calm (E : Env) : Env :=
  {| raises := λ _ _, false;
     consumer_assignment := consumer_assignment E;
     schedule := schedule E |}.

Section Manager.
Variable E : Env.

(** A call on a collaborator: it returns, or it raises and the exception
    propagates (the manager has no handler anywhere). *)
Definition call (e : Event) : M unit := λ w,
  if raises E (trace w) e
  then (Raise (CollaboratorError e), record (Raised e) w)
  else (Ok tt, record e w).

(** [self.app.consumer.assignment()]. *)
Definition assignment : M (gset TP) := λ w,
  let tps := consumer_assignment E (trace w) in
  mbind (λ _, mret tps) (call (Assignment tps)) w.

(** [asyncio.wait(coros)], default [return_when=ALL_COMPLETED]: every
    coroutine becomes a task; the loop advances one unfinished task at a
    time, in an order of its own, until none is left.  A task is done
    whether its coroutine returned or raised; [wait] does not re-raise.
    [tasks] pairs each unfinished coroutine with whether it has started. *)
Fixpoint run_tasks (fuel : nat) (tasks : list (Coro * bool)) : M unit :=
  match fuel, tasks with
  | 0, _ | _, [] => mret tt
  | S fuel', _ :: _ => λ w,
      let k := schedule E (trace w) `mod` length tasks in
      match tasks !! k with
      | Some (c, false) =>
          (emit (CallbackStart (coro_table c));;
           run_tasks fuel' (<[k := (c, true)]> tasks)) w
      | Some (c, true) =>
          (emit (CallbackDone (coro_table c));;
           run_tasks fuel' (delete k tasks)) w
      | None => (Ok tt, w)
      end
  end.

Definition asyncio_wait (coros : list Coro) : M unit :=
  match coros with
  | [] => raise EmptyWaitSet
  | _ => run_tasks (2 * length coros) ((λ c, (c, false)) <$> coros)
  end.

(** *** Properties *)

Definition changelog_queue : M ObjRef :=
  q ← gets _changelog_queue;
  match q with
  | None =>
      q' ← fresh;
      call (FlowControlQueue q');;
      modify (set_changelog_queue (Some q'));;
      mret q'
  | Some q => mret q
  end.

Definition recovery : M ObjRef :=
  r ← gets _recovery;
  match r with
  | None =>
      r' ← fresh;
      call (NewRecovery r');;
      modify (set_recovery (Some r'));;
      mret r'
  | Some r => mret r
  end.

(** *** Methods *)

Definition add (table : Table) : M Table :=
  started ← gets _recovery_started;
  if started : bool then raise TooLateToAddTables else
  match name table with
  | None => raise AssertionError
  | Some n =>
      d ← gets data;
      if dict_contains n d then raise (TableAlreadyExists n) else
      modify (set_data (dict_setitem n table d));;
      modify (λ m, set_changelogs
        (<[get_topic_name (changelog_topic table) := table]> (_changelogs m)) m);;
      mret table
  end.

Definition _update_channels : M unit :=
  tables ← gets values;
  for_each tables (λ table,
    chans ← gets _channels;
    match chans !! table with
    | None =>
        q ← changelog_queue;
        chan ← fresh;
        call (CloneUsingQueue table q chan);;
        call (TopicsAdd chan);;
        modify (λ m, set_channels (<[table := chan]> (_channels m)) m)
    | Some _ => mret tt
    end;;
    call (MaybeStart table));;
  tps ← assignment;
  m ← gets id;
  call (PausePartitions (filter (λ tp, _is_changelog_tp m tp) tps)).

Definition on_start : M unit :=
  call Sleep;;
  _update_channels;;
  r ← recovery;
  call (RecoveryStart r).

Definition on_stop : M unit :=
  call FetcherStop;;
  r ← gets _recovery;
  (* [if self._recovery:] a coordinator, once there, is a true value *)
  match r with
  | Some r => call (RecoveryStop r)
  | None => mret tt
  end;;
  tables ← gets values;
  for_each tables (λ table, call (TableStop table)).

Definition on_rebalance (assigned revoked newly_assigned : gset TP) : M unit :=
  modify (set_recovery_started true);;
  emit SetRecoveryStarted;;
  tables ← gets values;
  for_each tables (λ table,
    call (PartitionsRevoked table revoked);;
    call (PartitionsAssigned table newly_assigned));;
  _update_channels;;
  r ← recovery;
  call (RecoveryOnRebalance r assigned revoked newly_assigned).

Definition on_recovery_completed : M unit :=
  emit (LogInfo "Restore complete!");;
  tables ← gets values;
  let callback_coros := call_recover_callbacks <$> tables in
  match callback_coros with
  | [] => mret tt
  | _ => asyncio_wait callback_coros
  end;;
  emit (LogInfo "Perform seek");;
  call PerformSeek;;
  modify (set_recovery_completed true);;
  emit SetRecoveryCompleted;;
  tps ← assignment;
  m ← gets id;
  call (ResumePartitions (filter (λ tp, ¬ _is_changelog_tp m tp) tps));;
  call FetcherMaybeStart;;
  emit (SetRebalancing false);;
  emit (LogInfo "Worker ready").

End Manager.

(** ** The manager's interface as operations

    What the hosting worker can do with a manager, in any order; an
    exception is the caller's to handle and leaves the manager as it is at
    that point. *)
Inductive Op : Type :=
  | Add (table : Table)
  | OnStart
  | UpdateChannels
  | OnStop
  | OnRebalance (assigned revoked newly_assigned : gset TP)
  | OnRecoveryCompleted
  | GetChangelogQueue
  | GetRecovery
  | GetChangelogTopics.

Inductive Value : Type :=
  | VNone
  | VTable (table : Table)
  | VObj (r : ObjRef)
  | VTopics (topics : gset string).

Definition run_op (E : Env) (op : Op) : M Value :=
  match op with
  | Add table => t ← add table; mret (VTable t)
  | OnStart => on_start E;; mret VNone
  | UpdateChannels => _update_channels E;; mret VNone
  | OnStop => on_stop E;; mret VNone
  | OnRebalance a r n => on_rebalance E a r n;; mret VNone
  | OnRecoveryCompleted => on_recovery_completed E;; mret VNone
  | GetChangelogQueue => q ← changelog_queue E; mret (VObj q)
  | GetRecovery => r ← recovery E; mret (VObj r)
  | GetChangelogTopics => s ← gets changelog_topics; mret (VTopics s)
  end.

(** The outcomes of a sequence of operations, and the world they leave. *)
Fixpoint run_ops (E : Env) (ops : list Op) (w : World)
  : list (Outcome Value) * World :=
  match ops with
  | [] => ([], w)
  | op :: ops' =>
      let '(o, w1) := run_op E op w in
      let '(os, w2) := run_ops E ops' w1 in
      (o :: os, w2)
  end.

(** A manager fresh from its constructor: nothing has happened yet. *)
Definition new_world : World :=
  {| self := __init__; trace := []; next_ref := 0 |}.

(** * Specification vocabulary *)

(** ** Traces and runs *)

(** The world after [evs] more events. *)
Definition extend (evs : list Event) (w : World) : World :=
  {| self := self w; trace := trace w ++ evs; next_ref := next_ref w |}.

(** [a] comes before [b] in a trace: wherever [b] is called, whether it
    returns or raises, [a] has happened earlier. *)
Definition before (a b : Event) (evs : list Event) : Prop :=
  ∀ pre post, evs = pre ++ b :: post ∨ evs = pre ++ Raised b :: post → a ∈ pre.

(** How a run relates to the events [L] of the run in which nothing
    raises: it is that run, or it stops at the first call that raises. *)
Inductive run_of {A} (L : list Event) (a : A) : Outcome A → list Event → Prop :=
  | run_complete : run_of L a (Ok a) L
  | run_aborted L1 e L2 :
      L = L1 ++ e :: L2 →
      run_of L a (Raise (CollaboratorError e)) (L1 ++ [Raised e]).

(** The events that record a call on a collaborator, which may raise.
    The others record what cannot: a flag of the manager being set, a line
    being logged, and what the event loop does with a callback task, whose
    exception [asyncio.wait] leaves in the task. *)
Definition is_call (e : Event) : bool :=
  match e with
  | CallbackStart _ | CallbackDone _ | SetRecoveryStarted | SetRecoveryCompleted
  | SetRebalancing _ | LogInfo _ | Raised _ => false
  | _ => true
  end.

(** The events [L] played against the collaborators [E] after the history
    [tr]: each is recorded in turn, until a call raises.  The result is the
    call that raised, if any, and what has been recorded. *)
Fixpoint play (E : Env) (tr L : list Event) : option Event * list Event :=
  match L with
  | [] => (None, [])
  | e :: L' =>
      if is_call e && raises E tr e then (Some e, [Raised e])
      else let r := play E (tr ++ [e]) L' in (r.1, e :: r.2)
  end.

(** [run_of], with what decides between its cases: the run under the
    collaborators [E], from the history [tr], records [L] up to the first
    call that [E] makes raise and raises what that call raised; when [E]
    makes no call of [L] raise, it records all of [L] and returns [a]. *)
Definition run_under {A} (E : Env) (tr L : list Event) (a : A)
    (o : Outcome A) (evs : list Event) : Prop :=
  evs = (play E tr L).2 ∧
  o = match (play E tr L).1 with
      | None => Ok a
      | Some e => Raise (CollaboratorError e)
      end.

(** A well-behaved program: with calm collaborators it returns, and with
    any others it does what the calm run did up to the first call that
    raises, and raises there. *)
Definition lawful {A} (p : Env → M A) : Prop :=
  ∀ E w, ∃ a w0 L,
    p (calm E) w = (Ok a, w0) ∧ trace w0 = trace w ++ L ∧
    match play E (trace w) L with
    | (None, _) => p E w = (Ok a, w0)
    | (Some e, evs) =>
        ∃ w1, p E w = (Raise (CollaboratorError e), w1) ∧
              trace w1 = trace w ++ evs
    end.

(** A relation between the worlds before and after that every step of a
    program keeps, whatever the outcome. *)
Definition respects {A} (R : relation World) (p : M A) : Prop :=
  ∀ w, R w (p w).2.

(** The record of a call that raised. *)
Definition is_raised (e : Event) : bool :=
  match e with Raised _ => true | _ => false end.

(** ** Kinds of events *)

(** The events other than the construction of the queue and of the
    recovery coordinator, which only the two lazy properties record. *)
Definition plain (e : Event) : bool :=
  match e with
  | FlowControlQueue _ | NewRecovery _ => false
  | _ => true
  end.

(** The calls made while wiring one table. *)
Definition wiring (e : Event) : bool :=
  match e with
  | FlowControlQueue _ | CloneUsingQueue _ _ _ | TopicsAdd _ | MaybeStart _ => true
  | _ => false
  end.

(** The events of the recovered callbacks. *)
Definition is_callback (e : Event) : bool :=
  match e with CallbackStart _ | CallbackDone _ => true | _ => false end.

(** The partition notifications to the tables. *)
Definition is_notification (e : Event) : bool :=
  match e with PartitionsRevoked _ _ | PartitionsAssigned _ _ => true | _ => false end.

(** ** Relations between the worlds before and after a run *)

(** [P], once true, stays true. *)
Definition latch (P : World → Prop) : relation World :=
  λ w w', P w → P w'.

#[global] Instance latch_preorder P : PreOrder (latch P).
Proof. split; [by intros ? ? | intros x y z Hxy Hyz Hx; exact (Hyz (Hxy Hx))]. Qed.

(** The world moved on by events all satisfying [P]. *)
Definition emitted (P : Event → bool) : relation World :=
  λ w w', ∃ evs, trace w' = trace w ++ evs ∧ Forall P evs.

#[global] Instance emitted_preorder P : PreOrder (emitted P).
Proof.
  split.
  - intros w. exists []. by rewrite app_nil_r.
  - intros x y z (e1 & H1 & F1) (e2 & H2 & F2). exists (e1 ++ e2).
    split; [by rewrite H2, H1, (assoc_L (++)) | by apply Forall_app].
Qed.

(** A relation on the manager alone, as a relation on worlds. *)
Definition on_self (Rm : relation TableManager) : relation World :=
  λ w w', Rm (self w) (self w').

#[global] Instance on_self_preorder Rm `{!PreOrder Rm} : PreOrder (on_self Rm).
Proof.
  split; [intros w; unfold on_self; reflexivity |].
  intros x y z; unfold on_self; intros; by etrans.
Qed.

(** An attribute that keeps its value, and a property of the manager that
    stays true. *)
Definition same {A} (f : TableManager → A) : relation TableManager :=
  λ m m', f m' = f m.

Definition stays (P : TableManager → Prop) : relation TableManager :=
  λ m m', P m → P m'.

#[global] Instance same_preorder {A} (f : TableManager → A) : PreOrder (same f).
Proof. split; [by intros m | intros x y z; unfold same; congruence]. Qed.

#[global] Instance stays_preorder P : PreOrder (stays P).
Proof.
  split; [by intros m ? | intros x y z Hxy Hyz Hx; exact (Hyz (Hxy Hx))].
Qed.

(** Wiring writes the channels and the cached queue, nothing else. *)
Definition only_wired : relation TableManager :=
  λ m m', data m' = data m ∧ _changelogs m' = _changelogs m ∧
          _recovery m' = _recovery m ∧
          _recovery_started m' = _recovery_started m ∧
          recovery_completed m' = recovery_completed m.

#[global] Instance only_wired_preorder : PreOrder only_wired.
Proof.
  split; [by intros m |].
  intros x y z (?&?&?&?&?) (?&?&?&?&?). unfold only_wired.
  split_and!; congruence.
Qed.

(** The writes the methods make to the attributes. *)
Definition writes_queue (Rm : relation TableManager) : Prop :=
  ∀ m q, _changelog_queue m = None → Rm m (set_changelog_queue (Some q) m).

Definition writes_recovery (Rm : relation TableManager) : Prop :=
  ∀ m r, _recovery m = None → Rm m (set_recovery (Some r) m).

Definition writes_channels (Rm : relation TableManager) : Prop :=
  ∀ m t c, Rm m (set_channels (<[t:=c]> (_channels m)) m).

Definition writes_started (Rm : relation TableManager) : Prop :=
  ∀ m, Rm m (set_recovery_started true m).

Definition writes_completed (Rm : relation TableManager) : Prop :=
  ∀ m, Rm m (set_recovery_completed true m).

Definition writes_registry (Rm : relation TableManager) : Prop :=
  ∀ m table n, _recovery_started m = false → name table = Some n →
    dict_contains n (data m) = false →
    Rm m (set_changelogs
            (<[get_topic_name (changelog_topic table) := table]> (_changelogs m))
            (set_data (dict_setitem n table (data m)) m)).

(** ** The events of each method when nothing raises *)

(** The calls of a shutdown in which nothing raises. *)
Definition on_stop_calls (m : TableManager) : list Event :=
  [FetcherStop] ++
  match _recovery m with Some r => [RecoveryStop r] | None => [] end ++
  (TableStop <$> values m).

(** What is left to happen for one task. *)
Definition task_events (t : Coro * bool) : list Event :=
  if t.2 then [CallbackDone (coro_table t.1)]
  else [CallbackStart (coro_table t.1); CallbackDone (coro_table t.1)].

(** The two events of every callback. *)
Definition callback_events (tables : list Table) : list Event :=
  flat_map (λ t, [CallbackStart t; CallbackDone t]) tables.

(** What a first access records: the construction; a later one, nothing. *)
Definition construction {A} (cached : option A) (e : Event) : list Event :=
  match cached with Some _ => [] | None => [e] end.

(** The two notifications of every table, table after table. *)
Definition notifications (revoked newly_assigned : gset TP)
    (tables : list Table) : list Event :=
  flat_map (λ t, [PartitionsRevoked t revoked;
                  PartitionsAssigned t newly_assigned]) tables.

(** The events of a rebalance in which nothing raises, given the wiring
    calls [W], the assignment [tps] read and the coordinator [rec]. *)
Definition on_rebalance_events (m : TableManager) (a r n : gset TP)
    (W : list Event) (tps : gset TP) (rec : ObjRef) : list Event :=
  [SetRecoveryStarted] ++
  notifications r n (values m) ++
  W ++
  [Assignment tps;
   PausePartitions (filter (λ tp, topic tp ∈ changelog_topics m) tps)] ++
  construction (_recovery m) (NewRecovery rec) ++
  [RecoveryOnRebalance rec a r n].

(** The events of a recovery completion in which nothing raises, given
    the events [S] of the wait and the assignment [tps] read. *)
Definition on_recovery_completed_events (m : TableManager)
    (S : list Event) (tps : gset TP) : list Event :=
  [LogInfo "Restore complete!"] ++
  S ++
  [LogInfo "Perform seek"; PerformSeek; SetRecoveryCompleted;
   Assignment tps;
   ResumePartitions (filter (λ tp, topic tp ∉ changelog_topics m) tps);
   FetcherMaybeStart; SetRebalancing false; LogInfo "Worker ready"].

(** ** The registry and the invariant of a manager's life *)

(** The world after a successful [add]. *)
Definition registered (n : string) (table : Table) (w : World) : World :=
  {| self := set_changelogs
       (<[get_topic_name (changelog_topic table) := table]> (_changelogs (self w)))
       (set_data (data (self w) ++ [(n, table)]) (self w));
     trace := trace w;
     next_ref := next_ref w |}.

(** The name of the changelog topic of a table. *)
Definition topic_name (t : Table) : string := get_topic_name (changelog_topic t).

(** [changelogsByTopic] as derived from the tables in registration order. *)
Definition index_by_topic (tables : list Table) : gmap string Table :=
  foldl (λ c t, <[get_topic_name (changelog_topic t) := t]> c) ∅ tables.

(** The changelog topic names of the registered tables. *)
Definition registered_topics (m : TableManager) : gset string :=
  list_to_set ((λ t, get_topic_name (changelog_topic t)) <$> values m).

(** The registry as [add] builds it: names are unique keys, every table
    sits under its own name, and the topic index is derived from them. *)
Definition registry_inv (m : TableManager) : Prop :=
  NoDup (data m).*1 ∧
  Forall (λ kt, name kt.2 = Some kt.1) (data m) ∧
  _changelogs m = index_by_topic (values m).

(** The instances constructed so far, in order. *)
Definition constructed_queues (tr : list Event) : list ObjRef :=
  omap (λ e, match e with FlowControlQueue q => Some q | _ => None end) tr.

Definition constructed_recoveries (tr : list Event) : list ObjRef :=
  omap (λ e, match e with NewRecovery r => Some r | _ => None end) tr.

(** What has been constructed is what is cached, and the registry is as
    [add] builds it. *)
Definition consistent (w : World) : Prop :=
  constructed_queues (trace w) = option_list (_changelog_queue (self w)) ∧
  constructed_recoveries (trace w) = option_list (_recovery (self w)) ∧
  registry_inv (self w).

(** ** Two sentences of the specification, as worded *)

(** The contract of [add] as the specification words it: the late error
    exactly when recovery has started; otherwise the duplicate error exactly
    when a table of that name is registered; otherwise the table is recorded
    and returned; an error leaves the world as it was. *)
Definition add_as_specified (table : Table) (w : World) : Prop :=
  let o := (add table w).1 in
  let w' := (add table w).2 in
  (o = Raise TooLateToAddTables ↔ _recovery_started (self w) = true) ∧
  (_recovery_started (self w) = false →
     ((∃ n, o = Raise (TableAlreadyExists n)) ↔
      (∃ t, t ∈ values (self w) ∧ name t = name table)) ∧
     ((¬ ∃ t, t ∈ values (self w) ∧ name t = name table) →
      o = Ok table ∧ table ∈ values (self w') ∧
      _changelogs (self w') !! get_topic_name (changelog_topic table) = Some table)) ∧
  (∀ x, o = Raise x → w' = w).

(** The one-to-one correspondence the specification claims for the topic
    index: every registered table sits under exactly one topic name,
    tables that differ have topic names that differ, and the changelog
    topics are those of the registered tables. *)
Definition index_one_to_one (m : TableManager) : Prop :=
  (∀ t, t ∈ values m →
     ∃ k, _changelogs m !! k = Some t ∧
          ∀ k', _changelogs m !! k' = Some t → k' = k) ∧
  (∀ t1 t2, t1 ∈ values m → t2 ∈ values m → t1 ≠ t2 →
     topic_name t1 ≠ topic_name t2) ∧
  changelog_topics m = registered_topics m.

(** ** Concrete worlds for examples *)

(** Collaborators that never raise, an empty assignment, and an event
    loop that always advances the first unfinished task. *)
Definition quiet : Env :=
  {| raises := λ _ _, false;
     consumer_assignment := λ _, ∅;
     schedule := λ _, 0 |}.

(** The same, with a changelog partition of [orders] and a partition of
    a live topic assigned. *)
Definition two_assigned : Env :=
  {| raises := λ _ _, false;
     consumer_assignment := λ _, {[ ("orders-changelog", 0%Z); ("live", 0%Z) ]};
     schedule := λ _, 0 |}.

(** The same, with only the changelog partition of [orders] assigned. *)
Definition changelog_assigned : Env :=
  {| raises := λ _ _, false;
     consumer_assignment := λ _, {[ ("orders-changelog", 0%Z) ]};
     schedule := λ _, 0 |}.

Definition orders : Table :=
  {| table_id := 1; name := Some "orders";
     changelog_topic := {| get_topic_name := "orders-changelog" |} |}.

Definition users : Table :=
  {| table_id := 2; name := Some "users";
     changelog_topic := {| get_topic_name := "users-changelog" |} |}.

(** A table whose name was never set. *)
Definition nameless : Table :=
  {| table_id := 3; name := None;
     changelog_topic := {| get_topic_name := "nameless-changelog" |} |}.

(** A table with a name of its own that reuses the changelog topic of
    [orders]. *)
Definition orders_copy : Table :=
  {| table_id := 4; name := Some "orders-copy";
     changelog_topic := {| get_topic_name := "orders-changelog" |} |}.

(** ** Further vocabulary *)

(** Once recovery has started, the registry is what it was. *)
Definition frozen : relation TableManager :=
  λ m m', _recovery_started m = true →
          _recovery_started m' = true ∧ data m' = data m ∧
          _changelogs m' = _changelogs m.

#[global] Instance frozen_preorder : PreOrder frozen.
Proof.
  split; [by intros m ? |].
  intros x y z Hxy Hyz Hx. destruct (Hxy Hx) as (Hy & Hd & Hc).
  destruct (Hyz Hy) as (Hz & Hd' & Hc'). split_and!; congruence.
Qed.

(** The operations that neither register a table nor close registration. *)
Definition leaves_registration (op : Op) : bool :=
  match op with
  | Add _ | OnRebalance _ _ _ => false
  | _ => true
  end.

(** The events of a start in which nothing raises, given the wiring calls
    [W], the assignment [tps] read and the coordinator [rec]. *)
Definition on_start_events (m : TableManager)
    (W : list Event) (tps : gset TP) (rec : ObjRef) : list Event :=
  [Sleep] ++
  W ++
  [Assignment tps;
   PausePartitions (filter (λ tp, topic tp ∈ changelog_topics m) tps)] ++
  construction (_recovery m) (NewRecovery rec) ++
  [RecoveryStart rec].

(** The body of the loop of [_update_channels], for one table. *)
Definition wire_table (E : Env) (table : Table) : M unit :=
  chans ← gets _channels;
  match chans !! table with
  | None =>
      q ← changelog_queue E;
      chan ← fresh;
      call E (CloneUsingQueue table q chan);;
      call E (TopicsAdd chan);;
      modify (λ m, set_channels (<[table := chan]> (_channels m)) m)
  | Some _ => mret tt
  end;;
  call E (MaybeStart table).

(** The end of [_update_channels]: the assignment is read and its
    changelog partitions are paused. *)
Definition pause_changelogs (E : Env) : M unit :=
  tps ← assignment E;
  m ← gets id;
  call E (PausePartitions (filter (λ tp, _is_changelog_tp m tp) tps)).

(** The calls of [maybe_start] on the tables. *)
Definition is_maybe_start (e : Event) : bool :=
  match e with MaybeStart _ => true | _ => false end.

(** Every registered table has a channel. *)
Definition wired (m : TableManager) : Prop :=
  ∀ t, t ∈ values m → is_Some (_channels m !! t).

(** The events other than the two constructions, the cloning of a
    channel and the pausing of partitions. *)
Definition routine (e : Event) : bool :=
  match e with
  | FlowControlQueue _ | NewRecovery _ | CloneUsingQueue _ _ _
  | PausePartitions _ => false
  | _ => true
  end.


(** Nothing but the trace has changed. *)
Definition only_traced : relation World :=
  λ w w', self w' = self w ∧ next_ref w' = next_ref w.

#[global] Instance only_traced_preorder : PreOrder only_traced.
Proof.
  split; [by intros w |].
  intros x y z [? ?] [? ?]. split; congruence.
Qed.

(** The write of a channel for a table that has none. *)
Definition writes_new_channel (Rm : relation TableManager) : Prop :=
  ∀ m t c, _channels m !! t = None →
           Rm m (set_channels (<[t:=c]> (_channels m)) m).

(** Every channel ever cloned was cloned from the cached queue. *)
Definition one_queue (w : World) : Prop :=
  ∀ t q c, CloneUsingQueue t q c ∈ trace w → _changelog_queue (self w) = Some q.

(** Every stored channel was cloned for its table and added to the topic
    registry. *)
Definition channels_accounted (w : World) : Prop :=
  ∀ t c, _channels (self w) !! t = Some c →
    TopicsAdd c ∈ trace w ∧ ∃ q, CloneUsingQueue t q c ∈ trace w.

(** Every partition ever paused is a partition of a changelog topic. *)
Definition pauses_changelogs_only (w : World) : Prop :=
  ∀ X tp, PausePartitions X ∈ trace w → tp ∈ X →
    topic tp ∈ changelog_topics (self w).

Definition wiring_inv (w : World) : Prop :=
  one_queue w ∧ channels_accounted w ∧ pauses_changelogs_only w.




(** * Proofs *)

(** ** The monad *)

Lemma bind_unfold {A B} (p : M A) (f : A → M B) w :
  (p ≫= f) w = match p w with
               | (Ok a, w') => f a w'
               | (Raise x, w') => (Raise x, w')
               end.
Proof. reflexivity. Qed.

Lemma bind_Ok_inv {A B} (p : M A) (f : A → M B) w b w' :
  (p ≫= f) w = (Ok b, w') →
  ∃ a w1, p w = (Ok a, w1) ∧ f a w1 = (Ok b, w').
Proof.
  rewrite bind_unfold. destruct (p w) as [[a|x] w1]; [eauto | discriminate].
Qed.

Lemma bind_Ok {A B} (p : M A) (f : A → M B) w a w1 :
  p w = (Ok a, w1) → (p ≫= f) w = f a w1.
Proof. intros H. by rewrite bind_unfold, H. Qed.

Lemma bind_Raise {A B} (p : M A) (f : A → M B) w x w1 :
  p w = (Raise x, w1) → (p ≫= f) w = (Raise x, w1).
Proof. intros H. by rewrite bind_unfold, H. Qed.

(** ** Well-behaved programs *)

Lemma play_app E tr L1 L2 :
  play E tr (L1 ++ L2) =
  match play E tr L1 with
  | (None, _) => let r := play E (tr ++ L1) L2 in (r.1, L1 ++ r.2)
  | (Some e, evs) => (Some e, evs)
  end.
Proof.
  revert tr. induction L1 as [|e L1 IH]; intros tr; simpl.
  - rewrite app_nil_r. by destruct (play E tr L2).
  - destruct (is_call e && raises E tr e); [done|].
    rewrite IH. destruct (play E (tr ++ [e]) L1) as [[e'|] evs]; simpl; [done|].
    by rewrite <- (assoc_L (++)).
Qed.

(** A play in which nothing raises records everything. *)
Lemma play_None E tr L evs : play E tr L = (None, evs) → evs = L.
Proof.
  revert tr evs. induction L as [|e L IH]; intros tr evs; simpl.
  - by intros [= <-].
  - destruct (is_call e && raises E tr e); [done|].
    destruct (play E (tr ++ [e]) L) as [o evs'] eqn:Hplay. simpl.
    intros [= -> <-]. f_equal. by eapply IH.
Qed.

(** A play in which a call raises stops there: a call, which [E] makes
    raise after what was recorded before it. *)
Lemma play_Some E tr L e evs :
  play E tr L = (Some e, evs) →
  ∃ L1 L2, L = L1 ++ e :: L2 ∧ evs = L1 ++ [Raised e] ∧
    is_call e = true ∧ raises E (tr ++ L1) e = true ∧
    play E tr L1 = (None, L1).
Proof.
  revert tr evs. induction L as [|x L IH]; intros tr evs; simpl; [done|].
  destruct (is_call x && raises E tr x) eqn:Hx.
  - intros [= <- <-]. apply andb_true_iff in Hx as [Hc Hr].
    exists [], L. by rewrite app_nil_r.
  - destruct (play E (tr ++ [x]) L) as [o evs'] eqn:Hplay. simpl.
    intros [= -> <-].
    destruct (IH _ _ Hplay) as (L1 & L2 & -> & -> & Hc & Hr & Hp).
    exists (x :: L1), L2. simpl. rewrite Hx, Hp.
    by rewrite <- (assoc_L (++)) in Hr.
Qed.

(** With calm collaborators nothing raises. *)
Lemma play_calm E tr L :
  (∀ tr' e, raises E tr' e = false) → play E tr L = (None, L).
Proof.
  intros Hcalm. revert tr. induction L as [|e L IH]; intros tr; simpl; [done|].
  by rewrite Hcalm, andb_false_r, IH.
Qed.

(** Under collaborators that never raise, a run is all of [L]. *)
Lemma run_under_calm {A} E tr L (a : A) o evs :
  (∀ tr' e, raises E tr' e = false) →
  run_under E tr L a o evs → o = Ok a ∧ evs = L.
Proof.
  intros Hcalm [-> ->]. by rewrite (play_calm E tr L Hcalm).
Qed.

Lemma lawful_ret {A} (a : A) : lawful (λ _, mret a).
Proof.
  intros E w. exists a, w, []. by rewrite app_nil_r.
Qed.

Lemma lawful_gets {A} (f : TableManager → A) : lawful (λ _, gets f).
Proof.
  intros E w. exists (f (self w)), w, []. by rewrite app_nil_r.
Qed.

Lemma lawful_modify f : lawful (λ _, modify f).
Proof.
  intros E w. eexists tt, _, []. split; [reflexivity|].
  simpl. by rewrite app_nil_r.
Qed.

Lemma lawful_fresh : lawful (λ _, fresh).
Proof.
  intros E w. eexists _, _, []. split; [reflexivity|].
  simpl. by rewrite app_nil_r.
Qed.

Lemma lawful_emit e : is_call e = false → lawful (λ _, emit e).
Proof.
  intros He E w. eexists tt, _, [e]. split; [reflexivity|].
  split; [reflexivity|]. simpl. by rewrite He.
Qed.

Lemma lawful_call e : is_call e = true → lawful (λ E, call E e).
Proof.
  intros He E w. exists tt, (record e w), [e]. split; [reflexivity|].
  split; [reflexivity|]. unfold call. simpl. rewrite He. simpl.
  destruct (raises E (trace w) e); [|done].
  by exists (record (Raised e) w).
Qed.

Lemma lawful_bind {A B} (p : Env → M A) (f : Env → A → M B) :
  lawful p → (∀ a, lawful (λ E, f E a)) → lawful (λ E, p E ≫= f E).
Proof.
  intros Hp Hf E w.
  destruct (Hp E w) as (a & w0 & L & Hcalm & Htr & Hrun).
  destruct (Hf a E w0) as (b & w0' & L' & Hcalm' & Htr' & Hrun').
  exists b, w0', (L ++ L'). split; [|split].
  - by rewrite (bind_Ok _ _ _ _ _ Hcalm).
  - by rewrite Htr', Htr, (assoc_L (++)).
  - rewrite play_app. destruct (play E (trace w) L) as [[e|] evs].
    + destruct Hrun as (w1 & Hr & Htr1). exists w1.
      by rewrite (bind_Raise _ _ _ _ _ Hr).
    + rewrite (bind_Ok _ _ _ _ _ Hrun), <- Htr. cbn zeta.
      destruct (play E (trace w0) L') as [[e|] evs']; simpl; [|done].
      destruct Hrun' as (w1 & Hr & Htr1). exists w1. split; [done|].
      by rewrite Htr1, Htr, (assoc_L (++)).
Qed.

Lemma lawful_for_each {A} (xs : list A) (body : Env → A → M unit) :
  (∀ x, lawful (λ E, body E x)) → lawful (λ E, for_each xs (body E)).
Proof.
  intros Hb. induction xs as [|x xs IH]; simpl.
  - apply lawful_ret.
  - apply (lawful_bind (λ E, body E x) (λ E _, for_each xs (body E))); auto.
Qed.

(** *** Every method is well-behaved *)

Ltac lawful_step :=
  lazymatch goal with
  | |- lawful (λ E, mbind _ _) => apply lawful_bind; [| intros ?]
  | |- lawful (λ _, mret _) => apply lawful_ret
  | |- lawful (λ _, gets _) => apply lawful_gets
  | |- lawful (λ _, modify _) => apply lawful_modify
  | |- lawful (λ _, fresh) => apply lawful_fresh
  | |- lawful (λ _, emit _) => apply lawful_emit; reflexivity
  | |- lawful (λ E, call E _) => apply lawful_call; reflexivity
  | |- lawful (λ E, for_each _ _) => apply lawful_for_each; intros ?
  | |- lawful (λ E, match ?x with _ => _ end) => destruct x
  end.

Lemma lawful_assignment : lawful assignment.
Proof.
  intros E w. unfold assignment. simpl.
  apply (lawful_bind (λ E', call E' (Assignment (consumer_assignment E (trace w))))
           (λ _ _, mret (consumer_assignment E (trace w)))).
  - by apply lawful_call.
  - intros _. apply lawful_ret.
Qed.

Lemma lawful_run_tasks fuel tasks : lawful (λ E, run_tasks E fuel tasks).
Proof.
  revert tasks. induction fuel as [|fuel IH]; intros tasks.
  { destruct tasks; apply lawful_ret. }
  destruct tasks as [|t tasks]; [apply lawful_ret|].
  intros E w. cbn [run_tasks calm schedule].
  set (k := schedule E (trace w) `mod` length (t :: tasks)).
  destruct ((t :: tasks) !! k) as [[c []]|].
  - apply (lawful_bind (λ _, emit (CallbackDone (coro_table c)))
             (λ E' _, run_tasks E' fuel (delete k (t :: tasks)))).
    + by apply lawful_emit.
    + intros _. apply IH.
  - apply (lawful_bind (λ _, emit (CallbackStart (coro_table c)))
             (λ E' _, run_tasks E' fuel (<[k:=(c, true)]> (t :: tasks)))).
    + by apply lawful_emit.
    + intros _. apply IH.
  - exists tt, w, []. by rewrite app_nil_r.
Qed.

Lemma lawful_changelog_queue : lawful changelog_queue.
Proof. unfold changelog_queue. repeat lawful_step. Qed.

Lemma lawful_recovery : lawful recovery.
Proof. unfold recovery. repeat lawful_step. Qed.

Lemma lawful_update_channels : lawful _update_channels.
Proof.
  unfold _update_channels. repeat lawful_step;
    auto using lawful_changelog_queue, lawful_assignment.
Qed.

Lemma lawful_on_start : lawful on_start.
Proof.
  unfold on_start. repeat lawful_step;
    auto using lawful_update_channels, lawful_recovery.
Qed.

Lemma lawful_on_stop : lawful on_stop.
Proof. unfold on_stop. repeat lawful_step. Qed.

Lemma lawful_on_rebalance a r n : lawful (λ E, on_rebalance E a r n).
Proof.
  unfold on_rebalance. repeat lawful_step;
    auto using lawful_update_channels, lawful_recovery.
Qed.

Lemma lawful_on_recovery_completed : lawful on_recovery_completed.
Proof.
  unfold on_recovery_completed. repeat lawful_step;
    auto using lawful_assignment.
  unfold asyncio_wait. apply lawful_run_tasks.
Qed.

(** ** What a run keeps, whatever its outcome *)

Section Respects.
Context (R : relation World) `{!PreOrder R}.

Lemma respects_ret {A} (a : A) : respects R (mret a).
Proof. intros w. reflexivity. Qed.

Lemma respects_gets {A} (f : TableManager → A) : respects R (gets f).
Proof. intros w. reflexivity. Qed.

Lemma respects_raise {A} x : respects R (@raise A x).
Proof. intros w. reflexivity. Qed.

Lemma respects_bind {A B} (p : M A) (f : A → M B) :
  respects R p → (∀ a, respects R (f a)) → respects R (p ≫= f).
Proof.
  intros Hp Hf w. rewrite bind_unfold. specialize (Hp w).
  destruct (p w) as [[a|x] w1]; simpl in *; [|done].
  etrans; [exact Hp | apply Hf].
Qed.

Lemma respects_for_each {A} (xs : list A) (body : A → M unit) :
  (∀ x, respects R (body x)) → respects R (for_each xs body).
Proof.
  intros Hb. induction xs as [|x xs IH]; simpl.
  - apply respects_ret.
  - by apply respects_bind.
Qed.

(** Recording events and allocating references is all the rest does. *)
Hypothesis R_record : ∀ e w, plain e → R w (record e w).
Hypothesis R_fresh : ∀ w,
  R w {| self := self w; trace := trace w; next_ref := S (next_ref w) |}.

Lemma respects_emit e : plain e → respects R (emit e).
Proof. intros He w. by apply R_record. Qed.

Lemma respects_fresh : respects R fresh.
Proof. intros w. apply R_fresh. Qed.

Lemma respects_call E e : plain e → respects R (call E e).
Proof.
  intros He w. unfold call.
  destruct (raises E (trace w) e); by apply R_record.
Qed.

Lemma respects_assignment E : respects R (assignment E).
Proof.
  intros w. unfold assignment. simpl.
  apply (respects_bind (call E _) (λ _, mret _)).
  - by apply respects_call.
  - intros _. apply respects_ret.
Qed.

Lemma respects_run_tasks E fuel tasks : respects R (run_tasks E fuel tasks).
Proof.
  revert tasks. induction fuel as [|fuel IH]; intros tasks.
  { destruct tasks; apply respects_ret. }
  destruct tasks as [|t tasks]; [apply respects_ret|].
  intros w. cbn [run_tasks].
  set (k := schedule E (trace w) `mod` length (t :: tasks)).
  destruct ((t :: tasks) !! k) as [[c []]|]; [| |reflexivity].
  - apply (respects_bind (emit _) (λ _, run_tasks E fuel _));
      [by apply respects_emit | intros _; apply IH].
  - apply (respects_bind (emit _) (λ _, run_tasks E fuel _));
      [by apply respects_emit | intros _; apply IH].
Qed.

Lemma respects_asyncio_wait E coros : respects R (asyncio_wait E coros).
Proof.
  destruct coros; [apply respects_raise | apply respects_run_tasks].
Qed.

Ltac respects_step :=
  lazymatch goal with
  | |- respects _ (mbind _ _) => apply respects_bind; [| intros ?]
  | |- respects _ (mret _) => apply respects_ret
  | |- respects _ (gets _) => apply respects_gets
  | |- respects _ (raise _) => apply respects_raise
  | |- respects _ (emit _) => by apply respects_emit
  | |- respects _ fresh => apply respects_fresh
  | |- respects _ (call _ _) => by apply respects_call
  | |- respects _ (assignment _) => apply respects_assignment
  | |- respects _ (asyncio_wait _ _) => apply respects_asyncio_wait
  | |- respects _ (for_each _ _) => apply respects_for_each; intros ?
  | |- respects _ (match ?x with _ => _ end) => destruct x
  end.

Lemma respects_on_stop E : respects R (on_stop E).
Proof. unfold on_stop. repeat respects_step. Qed.

(** The methods, from what the properties and the attribute writes keep. *)
Hypothesis R_queue : ∀ E, respects R (changelog_queue E).
Hypothesis R_recovery : ∀ E, respects R (recovery E).
Hypothesis R_channels : ∀ t c,
  respects R (modify (λ m, set_channels (<[t:=c]> (_channels m)) m)).

Lemma respects_update_channels E : respects R (_update_channels E).
Proof. unfold _update_channels. repeat respects_step; auto. Qed.

Lemma respects_on_start E : respects R (on_start E).
Proof.
  unfold on_start. repeat respects_step; auto using respects_update_channels.
Qed.

Lemma respects_on_rebalance E a r n :
  respects R (modify (set_recovery_started true)) →
  respects R (on_rebalance E a r n).
Proof.
  intros H. unfold on_rebalance.
  repeat respects_step; auto using respects_update_channels.
Qed.

Lemma respects_on_recovery_completed E :
  respects R (modify (set_recovery_completed true)) →
  respects R (on_recovery_completed E).
Proof. intros H. unfold on_recovery_completed. repeat respects_step; auto. Qed.

End Respects.

(** Unfold a loop-free program down to its case analysis. *)
Ltac run_unfold :=
  unfold mbind, M_bind, mret, M_ret, gets, fresh, call, emit, modify, raise,
    record; simpl.

(** *** Relations on the manager alone *)

Section OnSelf.
Context (Rm : relation TableManager) `{!PreOrder Rm}.

Lemma on_self_record e w : plain e → on_self Rm w (record e w).
Proof. intros _. unfold on_self. reflexivity. Qed.

Lemma on_self_fresh w :
  on_self Rm w {| self := self w; trace := trace w; next_ref := S (next_ref w) |}.
Proof. unfold on_self. reflexivity. Qed.

Lemma on_self_modify g :
  (∀ m, Rm m (g m)) → respects (on_self Rm) (modify g).
Proof. intros H w. apply H. Qed.

Lemma on_self_changelog_queue E :
  writes_queue Rm → respects (on_self Rm) (changelog_queue E).
Proof.
  intros H w. unfold changelog_queue, on_self. run_unfold.
  destruct (_changelog_queue (self w)) eqn:Hq; simpl; [reflexivity|].
  destruct (raises E (trace w) _); simpl; [reflexivity | by apply H].
Qed.

Lemma on_self_recovery E :
  writes_recovery Rm → respects (on_self Rm) (recovery E).
Proof.
  intros H w. unfold recovery, on_self. run_unfold.
  destruct (_recovery (self w)) eqn:Hq; simpl; [reflexivity|].
  destruct (raises E (trace w) _); simpl; [reflexivity | by apply H].
Qed.

Lemma on_self_add table :
  writes_registry Rm → respects (on_self Rm) (add table).
Proof.
  intros H w. unfold add, on_self. run_unfold.
  destruct (_recovery_started (self w)) eqn:Hs; simpl; [reflexivity|].
  destruct (name table) as [n|] eqn:Hn; simpl; [|reflexivity].
  destruct (dict_contains n (data (self w))) eqn:Hd; simpl; [reflexivity|].
  by apply (H (self w) table n).
Qed.

Lemma on_self_on_stop E : respects (on_self Rm) (on_stop E).
Proof. apply respects_on_stop; [apply _ | apply on_self_record]. Qed.

Lemma on_self_update_channels E :
  writes_queue Rm → writes_channels Rm →
  respects (on_self Rm) (_update_channels E).
Proof.
  intros Hq Hc. apply respects_update_channels;
    [apply _ | apply on_self_record | apply on_self_fresh | |].
  - intros E'. by apply on_self_changelog_queue.
  - intros t c. apply on_self_modify. intros m. apply Hc.
Qed.

Lemma on_self_on_start E :
  writes_queue Rm → writes_recovery Rm → writes_channels Rm →
  respects (on_self Rm) (on_start E).
Proof.
  intros Hq Hr Hc. apply respects_on_start;
    [apply _ | apply on_self_record | apply on_self_fresh | | |].
  - intros E'. by apply on_self_changelog_queue.
  - intros E'. by apply on_self_recovery.
  - intros t c. apply on_self_modify. intros m. apply Hc.
Qed.

Lemma on_self_on_rebalance E a r n :
  writes_queue Rm → writes_recovery Rm → writes_channels Rm →
  writes_started Rm →
  respects (on_self Rm) (on_rebalance E a r n).
Proof.
  intros Hq Hr Hc Hs. apply respects_on_rebalance;
    [apply _ | apply on_self_record | apply on_self_fresh | | | |].
  - intros E'. by apply on_self_changelog_queue.
  - intros E'. by apply on_self_recovery.
  - intros t c. apply on_self_modify. intros m. apply Hc.
  - by apply on_self_modify.
Qed.

Lemma on_self_on_recovery_completed E :
  writes_completed Rm → respects (on_self Rm) (on_recovery_completed E).
Proof.
  intros Hs. apply respects_on_recovery_completed;
    [apply _ | apply on_self_record | by apply on_self_modify].
Qed.

Lemma on_self_then {A B} (p : M A) (f : A → B) :
  respects (on_self Rm) p → respects (on_self Rm) (a ← p; mret (f a)).
Proof.
  intros Hp. apply respects_bind; [apply _ | exact Hp |].
  intros a. apply respects_ret. apply _.
Qed.

(** Every operation, from the writes. *)
Lemma on_self_run_op E op :
  writes_queue Rm → writes_recovery Rm → writes_channels Rm →
  writes_started Rm → writes_completed Rm → writes_registry Rm →
  respects (on_self Rm) (run_op E op).
Proof.
  intros Hq Hr Hc Hs Hd Ha. destruct op; apply on_self_then;
    auto using on_self_add, on_self_on_start, on_self_update_channels,
      on_self_on_stop, on_self_on_rebalance, on_self_on_recovery_completed,
      on_self_changelog_queue, on_self_recovery.
  apply respects_gets. apply _.
Qed.

End OnSelf.

(** The writes that plainly keep such a relation. *)
Ltac writes :=
  unfold writes_queue, writes_recovery, writes_channels, writes_started,
    writes_completed, writes_registry, stays, same;
  intros; simpl in *; auto; congruence.

(** ** Runs that return *)

Lemma extend_nil w : extend [] w = w.
Proof. destruct w. unfold extend. simpl. by rewrite app_nil_r. Qed.

Lemma extend_app evs1 evs2 w :
  extend evs2 (extend evs1 w) = extend (evs1 ++ evs2) w.
Proof. unfold extend. simpl. by rewrite (assoc_L (++)). Qed.

Lemma ret_Ok {A} (a b : A) w w' :
  (mret a : M A) w = (Ok b, w') → b = a ∧ w' = w.
Proof. intros [= <- <-]. done. Qed.

Lemma gets_Ok {A} (f : TableManager → A) a w w' :
  gets f w = (Ok a, w') → a = f (self w) ∧ w' = w.
Proof. intros [= <- <-]. done. Qed.

Lemma modify_Ok g a w w' :
  modify g w = (Ok a, w') →
  w' = {| self := g (self w); trace := trace w; next_ref := next_ref w |}.
Proof. intros [= <- <-]. done. Qed.

Lemma emit_Ok e a w w' : emit e w = (Ok a, w') → w' = extend [e] w.
Proof. intros [= <- <-]. done. Qed.

Lemma call_Ok E e a w w' :
  call E e w = (Ok a, w') → raises E (trace w) e = false ∧ w' = extend [e] w.
Proof.
  unfold call. destruct (raises E (trace w) e); [discriminate|].
  intros [= <- <-]. done.
Qed.

Lemma assignment_Ok E tps w w' :
  assignment E w = (Ok tps, w') →
  tps = consumer_assignment E (trace w) ∧ w' = extend [Assignment tps] w.
Proof.
  unfold assignment. simpl. intros H.
  apply bind_Ok_inv in H as (a & w1 & H1 & H2).
  apply call_Ok in H1 as [_ ->]. apply ret_Ok in H2 as [-> ->]. done.
Qed.

(** A loop whose body only makes calls makes them table after table. *)
Lemma for_each_Ok {A} (evs : A → list Event) (body : A → M unit) xs w w' :
  (∀ x w1 w2, body x w1 = (Ok tt, w2) → w2 = extend (evs x) w1) →
  for_each xs body w = (Ok tt, w') → w' = extend (flat_map evs xs) w.
Proof.
  intros Hb. revert w. induction xs as [|x xs IH]; intros w H; simpl in *.
  - apply ret_Ok in H as [_ ->]. by rewrite extend_nil.
  - apply bind_Ok_inv in H as ([] & w1 & H1 & H2).
    apply Hb in H1 as ->. apply IH in H2 as ->. by rewrite extend_app.
Qed.

Lemma flat_map_singleton {A B} (f : A → B) (l : list A) :
  flat_map (λ x, [f x]) l = f <$> l.
Proof. induction l as [|x l IH]; [done|]. simpl. by rewrite IH. Qed.

(** *** [on_stop] *)

Lemma on_stop_Ok E w w' :
  on_stop E w = (Ok tt, w') → w' = extend (on_stop_calls (self w)) w.
Proof.
  unfold on_stop, on_stop_calls. intros H.
  apply bind_Ok_inv in H as (? & w1 & H1 & H). apply call_Ok in H1 as [_ ->].
  apply bind_Ok_inv in H as (r & w1 & H1 & H). apply gets_Ok in H1 as [-> ->].
  apply bind_Ok_inv in H as (? & w1 & H1 & H).
  apply bind_Ok_inv in H as (ts & w2 & H2 & H). apply gets_Ok in H2 as [-> ->].
  apply (for_each_Ok (λ t, [TableStop t])) in H as ->.
  2:{ intros t wa wb Hc. by apply call_Ok in Hc as [_ ->]. }
  rewrite flat_map_singleton.
  simpl in H1. destruct (_recovery (self w)) as [r|].
  - apply call_Ok in H1 as [_ ->]. by rewrite !extend_app.
  - apply ret_Ok in H1 as [_ ->]. by rewrite !extend_app.
Qed.

(** *** Channel wiring *)

Lemma for_each_Ok_rel {A} (I : relation World) `{!PreOrder I}
    (body : A → M unit) xs w w' :
  (∀ x w1 w2, body x w1 = (Ok tt, w2) → I w1 w2) →
  for_each xs body w = (Ok tt, w') → I w w'.
Proof.
  intros Hb. revert w. induction xs as [|x xs IH]; intros w H; simpl in *.
  - apply ret_Ok in H as [_ ->]. reflexivity.
  - apply bind_Ok_inv in H as ([] & w1 & H1 & H2).
    etrans; [by eapply Hb | by apply IH].
Qed.

Lemma filter_changelog_tp (m m' : TableManager) (tps : gset TP) :
  _changelogs m' = _changelogs m →
  filter (λ tp, _is_changelog_tp m' tp) tps
  = filter (λ tp, topic tp ∈ changelog_topics m) tps.
Proof.
  intros H. apply set_eq. intros tp. rewrite !elem_of_filter.
  unfold _is_changelog_tp, changelog_topics. rewrite H.
  by rewrite bool_decide_spec.
Qed.

Lemma filter_not_changelog_tp (m m' : TableManager) (tps : gset TP) :
  _changelogs m' = _changelogs m →
  filter (λ tp, ¬ _is_changelog_tp m' tp) tps
  = filter (λ tp, topic tp ∉ changelog_topics m) tps.
Proof.
  intros H. apply set_eq. intros tp. rewrite !elem_of_filter.
  unfold _is_changelog_tp, changelog_topics. rewrite H.
  by rewrite bool_decide_spec.
Qed.

Lemma update_channels_only_wired E w :
  only_wired (self w) (self (_update_channels E w).2).
Proof. by apply (on_self_update_channels only_wired). Qed.

(** A wiring that returns: wiring calls only, then the assignment is
    read and its changelog partitions are paused. *)
Lemma update_channels_Ok E w w' :
  _update_channels E w = (Ok tt, w') →
  ∃ W, Forall wiring W ∧
    let tps := consumer_assignment E (trace w ++ W) in
    trace w' = trace w ++ W ++
      [Assignment tps;
       PausePartitions (filter (λ tp, topic tp ∈ changelog_topics (self w)) tps)].
Proof.
  intros H. pose proof (update_channels_only_wired E w) as (_ & Hreg & _).
  rewrite H in Hreg. simpl in Hreg.
  unfold _update_channels in H.
  apply bind_Ok_inv in H as (ts & w1 & H1 & H). apply gets_Ok in H1 as [-> ->].
  apply bind_Ok_inv in H as ([] & w1 & H1 & H).
  apply (for_each_Ok_rel (emitted wiring)) in H1 as (W & HW & HF).
  2:{ clear. intros t w1 w2. unfold changelog_queue. run_unfold.
      repeat case_match; intros; simplify_eq; simpl;
        (eexists; split; [by rewrite <- ?(assoc_L (++)) |]);
        repeat constructor. }
  exists W. split; [done|]. simpl.
  apply bind_Ok_inv in H as (tps & w2 & H2 & H).
  apply assignment_Ok in H2 as [-> ->].
  apply bind_Ok_inv in H as (m & w2 & H2 & H). apply gets_Ok in H2 as [-> ->].
  apply call_Ok in H as [_ ->]. simpl. rewrite HW.
  rewrite <- !(assoc_L (++)). simpl. repeat f_equal.
  by apply filter_changelog_tp.
Qed.

(** *** Waiting for the recovery callbacks *)

Lemma run_tasks_Ok E fuel tasks w :
  length (flat_map task_events tasks) ≤ fuel →
  ∃ S, run_tasks E fuel tasks w = (Ok tt, extend S w) ∧
       S ≡ₚ flat_map task_events tasks.
Proof.
  revert tasks w. induction fuel as [|fuel IH]; intros tasks w Hfuel.
  { destruct tasks as [|[c []] tasks]; simpl in Hfuel; try lia.
    exists []. by rewrite extend_nil. }
  destruct tasks as [|t tasks].
  { exists []. by rewrite extend_nil. }
  cbn [run_tasks].
  set (k := schedule E (trace w) `mod` length (t :: tasks)).
  assert (k < length (t :: tasks)) as Hk.
  { apply Nat.mod_upper_bound. simpl. lia. }
  destruct (lookup_lt_is_Some_2 _ _ Hk) as [[c b] Hc]. rewrite Hc.
  pose proof (delete_Permutation _ _ _ Hc) as Hperm.
  assert (flat_map task_events (t :: tasks)
          ≡ₚ task_events (c, b) ++ flat_map task_events (delete k (t :: tasks)))
    as Hflat by exact (Permutation_flat_map task_events Hperm).
  destruct b.
  - (* the task finishes *)
    destruct (IH (delete k (t :: tasks)) (extend [CallbackDone (coro_table c)] w))
      as (S' & HS' & HP').
    { apply Permutation_length in Hflat. simpl in *. lia. }
    exists (CallbackDone (coro_table c) :: S'). split.
    + rewrite bind_unfold. cbn [emit]. change (record ?e w) with (extend [e] w).
      by rewrite HS', extend_app.
    + rewrite Hflat. simpl. by rewrite HP'.
  - (* the task starts *)
    assert (<[k:=(c, true)]> (t :: tasks) ≡ₚ (c, true) :: delete k (t :: tasks))
      as Hins.
    { rewrite insert_take_drop, delete_take_drop by done.
      by rewrite <- Permutation_middle. }
    destruct (IH (<[k:=(c, true)]> (t :: tasks))
                (extend [CallbackStart (coro_table c)] w)) as (S' & HS' & HP').
    { apply Permutation_length in Hflat. rewrite Hins. simpl in *. lia. }
    exists (CallbackStart (coro_table c) :: S'). split.
    + rewrite bind_unfold. cbn [emit]. change (record ?e w) with (extend [e] w).
      by rewrite HS', extend_app.
    + rewrite Hflat, HP', Hins. done.
Qed.

Lemma task_events_unstarted coros :
  flat_map task_events ((λ c, (c, false)) <$> coros)
  = callback_events (coro_table <$> coros).
Proof.
  unfold callback_events. induction coros as [|x l IH]; [done|].
  rewrite !fmap_cons. cbn [flat_map]. by rewrite IH.
Qed.

Lemma callback_events_length tables :
  length (callback_events tables) = 2 * length tables.
Proof.
  unfold callback_events. induction tables as [|x l IH]; [done|].
  cbn [flat_map length app]. rewrite IH. lia.
Qed.

Lemma asyncio_wait_Ok E c coros w :
  ∃ S, asyncio_wait E (c :: coros) w = (Ok tt, extend S w) ∧
       S ≡ₚ callback_events (coro_table <$> (c :: coros)).
Proof.
  unfold asyncio_wait.
  destruct (run_tasks_Ok E (2 * length (c :: coros))
              ((λ c, (c, false)) <$> (c :: coros)) w) as (S & HS & HP).
  { rewrite task_events_unstarted, callback_events_length.
    by rewrite length_fmap. }
  exists S. split; [done|]. by rewrite HP, task_events_unstarted.
Qed.

(** *** The lazy properties *)

Lemma changelog_queue_Ok E w q w' :
  changelog_queue E w = (Ok q, w') →
  _changelog_queue (self w') = Some q ∧
  trace w' = trace w ++ construction (_changelog_queue (self w)) (FlowControlQueue q) ∧
  (∀ q0, _changelog_queue (self w) = Some q0 → q = q0 ∧ w' = w).
Proof.
  unfold changelog_queue. run_unfold.
  destruct (_changelog_queue (self w)) as [q0|] eqn:Hq.
  - intros [= <- <-]. rewrite Hq, app_nil_r. split_and!; [done..|].
    by intros ? [= <-].
  - destruct (raises E (trace w) _); [discriminate|]. intros [= <- <-]. done.
Qed.

Lemma recovery_Ok E w r w' :
  recovery E w = (Ok r, w') →
  _recovery (self w') = Some r ∧
  trace w' = trace w ++ construction (_recovery (self w)) (NewRecovery r) ∧
  (∀ r0, _recovery (self w) = Some r0 → r = r0 ∧ w' = w).
Proof.
  unfold recovery. run_unfold.
  destruct (_recovery (self w)) as [r0|] eqn:Hr.
  - intros [= <- <-]. rewrite Hr, app_nil_r. split_and!; [done..|].
    by intros ? [= <-].
  - destruct (raises E (trace w) _); [discriminate|]. intros [= <- <-]. done.
Qed.

(** An access that finds an instance cached returns it and does nothing
    else. *)
Lemma changelog_queue_cached E w q :
  _changelog_queue (self w) = Some q → changelog_queue E w = (Ok q, w).
Proof.
  intros H. unfold changelog_queue. rewrite bind_unfold. cbn [gets].
  by rewrite H.
Qed.

Lemma recovery_cached E w rec :
  _recovery (self w) = Some rec → recovery E w = (Ok rec, w).
Proof.
  intros H. unfold recovery. rewrite bind_unfold. cbn [gets]. by rewrite H.
Qed.

(** An access returns unless it has to construct and the constructor
    raises. *)
Lemma changelog_queue_returns E w :
  (∃ q w', changelog_queue E w = (Ok q, w')) ↔
  is_Some (_changelog_queue (self w)) ∨
  raises E (trace w) (FlowControlQueue (next_ref w)) = false.
Proof.
  unfold changelog_queue. run_unfold.
  destruct (_changelog_queue (self w)) as [q|].
  { split; [by left; eexists | by intros _; eexists _, _]. }
  destruct (raises E (trace w) _).
  - split; [by intros (? & ? & ?) | by intros [[? ?] | ?]].
  - split; [by right | by intros _; eexists _, _].
Qed.

Lemma recovery_returns E w :
  (∃ r w', recovery E w = (Ok r, w')) ↔
  is_Some (_recovery (self w)) ∨
  raises E (trace w) (NewRecovery (next_ref w)) = false.
Proof.
  unfold recovery. run_unfold.
  destruct (_recovery (self w)) as [r|].
  { split; [by left; eexists | by intros _; eexists _, _]. }
  destruct (raises E (trace w) _).
  - split; [by intros (? & ? & ?) | by intros [[? ?] | ?]].
  - split; [by right | by intros _; eexists _, _].
Qed.

(** *** [on_rebalance] *)

Lemma on_rebalance_Ok E a r n w w' :
  on_rebalance E a r n w = (Ok tt, w') →
  ∃ W rec, Forall wiring W ∧
    let tps := consumer_assignment E
      (trace w ++ [SetRecoveryStarted] ++ notifications r n (values (self w)) ++ W) in
    trace w' = trace w ++ on_rebalance_events (self w) a r n W tps rec.
Proof.
  unfold on_rebalance. intros H.
  apply bind_Ok_inv in H as (? & w1 & H1 & H). apply modify_Ok in H1 as ->.
  apply bind_Ok_inv in H as (? & w1 & H1 & H). apply emit_Ok in H1 as ->.
  apply bind_Ok_inv in H as (ts & w1 & H1 & H). apply gets_Ok in H1 as [-> ->].
  apply bind_Ok_inv in H as ([] & w1 & H1 & H).
  apply (for_each_Ok (λ t, [PartitionsRevoked t r; PartitionsAssigned t n]))
    in H1 as ->.
  2:{ intros t wa wb Hc. apply bind_Ok_inv in Hc as (? & wc & Hc1 & Hc2).
      apply call_Ok in Hc1 as [_ ->]. apply call_Ok in Hc2 as [_ ->].
      by rewrite extend_app. }
  apply bind_Ok_inv in H as ([] & w2 & H2 & H).
  match type of H2 with _update_channels E ?w0 = _ =>
    pose proof (update_channels_only_wired E w0) as Hkeep end.
  rewrite H2 in Hkeep. destruct Hkeep as (_ & _ & Hrec & _).
  apply update_channels_Ok in H2 as (W & HW & Htr2).
  apply bind_Ok_inv in H as (rec & w3 & H3 & H).
  apply recovery_Ok in H3 as (_ & Htr3 & _).
  apply call_Ok in H as [_ ->].
  exists W, rec. split; [done|].
  simpl in *. rewrite Htr3, Htr2, Hrec.
  change (values (set_recovery_started true (self w))) with (values (self w)).
  change (changelog_topics (set_recovery_started true (self w)))
    with (changelog_topics (self w)).
  unfold on_rebalance_events, notifications.
  rewrite <- !(assoc_L (++)). simpl. rewrite <- ?(assoc_L (++)). done.
Qed.

(** *** [on_recovery_completed] *)

Lemma coro_table_callbacks (tables : list Table) :
  coro_table <$> (call_recover_callbacks <$> tables) = tables.
Proof. induction tables as [|t l IH]; [done|]. rewrite !fmap_cons. by rewrite IH. Qed.

Lemma on_recovery_completed_Ok E w w' :
  on_recovery_completed E w = (Ok tt, w') →
  ∃ S, S ≡ₚ callback_events (values (self w)) ∧
    let tps := consumer_assignment E
      (trace w ++ [LogInfo "Restore complete!"] ++ S ++
       [LogInfo "Perform seek"; PerformSeek; SetRecoveryCompleted]) in
    self w' = set_recovery_completed true (self w) ∧
    trace w' = trace w ++ on_recovery_completed_events (self w) S tps.
Proof.
  unfold on_recovery_completed. intros H.
  apply bind_Ok_inv in H as ([] & w1 & H1 & H). apply emit_Ok in H1 as ->.
  apply bind_Ok_inv in H as (ts & w1 & H1 & H). apply gets_Ok in H1 as [-> ->].
  apply bind_Ok_inv in H as ([] & w1 & H1 & H).
  assert (∃ S, S ≡ₚ callback_events (values (self w)) ∧
               w1 = extend S (extend [LogInfo "Restore complete!"] w))
    as (S & HS & ->).
  { change (values (self (extend _ w))) with (values (self w)) in H1.
    rewrite <- (coro_table_callbacks (values (self w))).
    destruct (call_recover_callbacks <$> values (self w)) as [|c coros].
    - apply ret_Ok in H1 as [_ ->]. exists []. by rewrite extend_nil.
    - destruct (asyncio_wait_Ok E c coros (extend [LogInfo "Restore complete!"] w))
        as (S & HS & HP).
      exists S. split; [done|]. congruence. }
  clear H1. exists S. split; [done|].
  apply bind_Ok_inv in H as ([] & w1 & H1 & H). apply emit_Ok in H1 as ->.
  apply bind_Ok_inv in H as ([] & w1 & H1 & H). apply call_Ok in H1 as [_ ->].
  apply bind_Ok_inv in H as ([] & w1 & H1 & H). apply modify_Ok in H1 as ->.
  apply bind_Ok_inv in H as ([] & w1 & H1 & H). apply emit_Ok in H1 as ->.
  apply bind_Ok_inv in H as (tps & w1 & H1 & H).
  apply assignment_Ok in H1 as [-> ->].
  apply bind_Ok_inv in H as (m & w1 & H1 & H). apply gets_Ok in H1 as [-> ->].
  apply bind_Ok_inv in H as ([] & w1 & H1 & H). apply call_Ok in H1 as [_ ->].
  apply bind_Ok_inv in H as ([] & w1 & H1 & H). apply call_Ok in H1 as [_ ->].
  apply bind_Ok_inv in H as ([] & w1 & H1 & H). apply emit_Ok in H1 as ->.
  apply emit_Ok in H as ->.
  simpl. split; [done|].
  unfold on_recovery_completed_events.
  rewrite (filter_not_changelog_tp (self w)) by done.
  rewrite <- !(assoc_L (++)). simpl. rewrite <- ?(assoc_L (++)). done.
Qed.

(** ** Registration *)

Lemma dict_contains_spec k d : dict_contains k d = true ↔ k ∈ d.*1.
Proof. unfold dict_contains. by rewrite bool_decide_eq_true. Qed.

Lemma dict_contains_false k d : dict_contains k d = false ↔ k ∉ d.*1.
Proof. unfold dict_contains. by rewrite bool_decide_eq_false. Qed.

(** A new key goes last. *)
Lemma dict_setitem_new k v d :
  k ∉ d.*1 → dict_setitem k v d = d ++ [(k, v)].
Proof.
  induction d as [|[k' v'] d IH]; intros Hk; simpl; [done|].
  rewrite fmap_cons, not_elem_of_cons in Hk. destruct Hk as [Hne Hk].
  simpl in Hne. rewrite decide_False by done. by rewrite IH.
Qed.

(** [add], case by case. *)
Lemma add_cases table w :
  add table w =
    if _recovery_started (self w) then (Raise TooLateToAddTables, w)
    else match name table with
         | None => (Raise AssertionError, w)
         | Some n =>
             if dict_contains n (data (self w))
             then (Raise (TableAlreadyExists n), w)
             else (Ok table, registered n table w)
         end.
Proof.
  unfold add. run_unfold.
  destruct (_recovery_started (self w)); [done|].
  destruct (name table) as [n|]; [|done]. simpl.
  destruct (dict_contains n (data (self w))) eqn:Hd; [done|].
  apply dict_contains_false in Hd. simpl. unfold registered.
  by rewrite dict_setitem_new.
Qed.

Lemma index_by_topic_snoc tables t :
  index_by_topic (tables ++ [t])
  = <[get_topic_name (changelog_topic t) := t]> (index_by_topic tables).
Proof. unfold index_by_topic. by rewrite foldl_app. Qed.

Lemma index_by_topic_dom tables :
  dom (index_by_topic tables)
  = list_to_set ((λ t, get_topic_name (changelog_topic t)) <$> tables).
Proof.
  induction tables as [|t tables IH] using rev_ind; [apply dom_empty_L|].
  rewrite index_by_topic_snoc, dom_insert_L, IH, fmap_app, list_to_set_app_L.
  simpl. rewrite (right_id_L ∅ (∪)). apply (comm_L (∪)).
Qed.

Lemma registry_inv_init : registry_inv __init__.
Proof. split_and!; [constructor | constructor | done]. Qed.

Lemma registry_inv_registered n table w :
  name table = Some n → n ∉ (data (self w)).*1 →
  registry_inv (self w) → registry_inv (self (registered n table w)).
Proof.
  intros Hn Hfresh (Hnd & Hnames & Hidx). unfold registry_inv, values. simpl.
  split_and!.
  - rewrite fmap_app. apply NoDup_app. split_and!; [done | | apply NoDup_singleton].
    intros k Hk. simpl. rewrite list_elem_of_singleton. by intros ->.
  - apply Forall_app. split; [done|]. by constructor.
  - rewrite fmap_app. simpl. rewrite index_by_topic_snoc. by rewrite Hidx.
Qed.

(** In a registry, the keys are the names of the registered tables. *)
Lemma registry_inv_key m n :
  registry_inv m → n ∈ (data m).*1 ↔ ∃ t, t ∈ values m ∧ name t = Some n.
Proof.
  intros (_ & Hnames & _). unfold values. rewrite Forall_forall in Hnames.
  split.
  - intros ([k t] & -> & Hin)%list_elem_of_fmap. exists t. split.
    + apply list_elem_of_fmap. by exists (k, t).
    + by apply (Hnames (k, t)).
  - intros (t & ([k t'] & -> & Hin)%list_elem_of_fmap & Hn).
    apply list_elem_of_fmap. exists (k, t'). split; [|done].
    apply Hnames in Hin. simpl in *. congruence.
Qed.

Lemma registry_inv_topics m :
  registry_inv m → changelog_topics m = registered_topics m.
Proof.
  intros (_ & _ & Hidx). unfold changelog_topics, registered_topics.
  by rewrite Hidx, index_by_topic_dom.
Qed.

(** ** The invariant of a manager's life *)

Lemma consistent_new_world : consistent new_world.
Proof. split_and!; [done | done | apply registry_inv_init]. Qed.

Lemma constructed_queues_snoc tr e :
  constructed_queues (tr ++ [e])
  = constructed_queues tr ++
    match e with FlowControlQueue q => [q] | _ => [] end.
Proof. unfold constructed_queues. rewrite omap_app. by destruct e. Qed.

Lemma constructed_recoveries_snoc tr e :
  constructed_recoveries (tr ++ [e])
  = constructed_recoveries tr ++
    match e with NewRecovery r => [r] | _ => [] end.
Proof. unfold constructed_recoveries. rewrite omap_app. by destruct e. Qed.

Lemma consistent_record e w :
  plain e → latch consistent w (record e w).
Proof.
  intros He (Hq & Hr & Hreg). unfold consistent. simpl.
  rewrite constructed_queues_snoc, constructed_recoveries_snoc.
  destruct e; try done; rewrite !app_nil_r; done.
Qed.

Lemma consistent_changelog_queue E :
  respects (latch consistent) (changelog_queue E).
Proof.
  intros w (Hq & Hr & Hreg). unfold changelog_queue, consistent. run_unfold.
  destruct (_changelog_queue (self w)) as [q|] eqn:Hc; simpl.
  { by rewrite Hc. }
  destruct (raises E (trace w) _); simpl;
    rewrite constructed_queues_snoc, constructed_recoveries_snoc, Hq, Hr;
    simpl; rewrite ?app_nil_r, ?Hc; done.
Qed.

Lemma consistent_recovery E :
  respects (latch consistent) (recovery E).
Proof.
  intros w (Hq & Hr & Hreg). unfold recovery, consistent. run_unfold.
  destruct (_recovery (self w)) as [r|] eqn:Hc; simpl.
  { by rewrite Hc. }
  destruct (raises E (trace w) _); simpl;
    rewrite constructed_queues_snoc, constructed_recoveries_snoc, Hq, Hr;
    simpl; rewrite ?app_nil_r, ?Hc; done.
Qed.

Lemma consistent_add table : respects (latch consistent) (add table).
Proof.
  intros w (Hq & Hr & Hreg). rewrite add_cases.
  destruct (_recovery_started (self w)); [done|].
  destruct (name table) as [n|] eqn:Hn; [|done].
  destruct (dict_contains n (data (self w))) eqn:Hd; [done|].
  apply dict_contains_false in Hd.
  split_and!; [done | done | by apply registry_inv_registered].
Qed.

Lemma consistent_run_op E op : respects (latch consistent) (run_op E op).
Proof.
  assert (∀ w, latch consistent w
            {| self := self w; trace := trace w; next_ref := S (next_ref w) |})
    as Hfresh by (by intros w H).
  assert (∀ g, (∀ m, _changelog_queue (g m) = _changelog_queue m ∧
                      _recovery (g m) = _recovery m ∧
                      data (g m) = data m ∧ _changelogs (g m) = _changelogs m) →
               respects (latch consistent) (modify g)) as Hmod.
  { intros g Hg w (Hq & Hr & Hnd & Hnames & Hidx).
    destruct (Hg (self w)) as (Eq & Er & Ed & Ec).
    unfold consistent, registry_inv, values. simpl.
    by rewrite Eq, Er, Ed, Ec. }
  destruct op;
    (apply respects_bind; [apply _ | | intros ?; apply respects_ret; apply _]).
  - apply consistent_add.
  - apply respects_on_start;
      auto using consistent_record, consistent_changelog_queue,
        consistent_recovery with typeclass_instances.
  - apply respects_update_channels;
      auto using consistent_record, consistent_changelog_queue
        with typeclass_instances.
  - apply respects_on_stop; auto using consistent_record with typeclass_instances.
  - apply respects_on_rebalance;
      auto using consistent_record, consistent_changelog_queue,
        consistent_recovery with typeclass_instances.
  - apply respects_on_recovery_completed;
      auto using consistent_record with typeclass_instances.
  - apply consistent_changelog_queue.
  - apply consistent_recovery.
  - apply respects_gets. apply _.
Qed.

(** What every operation respects, every sequence of them does. *)
Lemma respects_run_ops (R : relation World) `{!PreOrder R} E ops w :
  (∀ op, respects R (run_op E op)) → R w (run_ops E ops w).2.
Proof.
  intros H. revert w. induction ops as [|op ops IH]; intros w; simpl.
  - reflexivity.
  - specialize (H op w). destruct (run_op E op w) as [o w1].
    specialize (IH w1). destruct (run_ops E ops w1) as [os w2]. simpl in *.
    by etrans.
Qed.

Lemma consistent_run_ops E ops w :
  consistent w → consistent (run_ops E ops w).2.
Proof. apply (respects_run_ops (latch consistent)), consistent_run_op. Qed.

(** ** Every run, from the run in which nothing raises *)

Lemma lawful_run_of {A} (p : Env → M A) E w :
  lawful p →
  ∃ a w0 L evs,
    p (calm E) w = (Ok a, w0) ∧ trace w0 = trace w ++ L ∧
    trace (p E w).2 = trace w ++ evs ∧ run_of L a (p E w).1 evs.
Proof.
  intros Hp. destruct (Hp E w) as (a & w0 & L & Hcalm & Htr & Hrun).
  destruct (play E (trace w) L) as [[e|] evs] eqn:Hplay.
  - destruct Hrun as (w1 & Hr & Htr1).
    apply play_Some in Hplay as (L1 & L2 & -> & -> & _).
    exists a, w0, (L1 ++ e :: L2), (L1 ++ [Raised e]). rewrite Hr.
    split_and!; [done..|]. by apply (run_aborted _ _ L1 e L2).
  - exists a, w0, L, L. rewrite Hrun. split_and!; [done..|]. constructor.
Qed.

(** Every run of a well-behaved program is the play, against its
    collaborators, of what the calm run records; a run that returns is the
    calm run. *)
Lemma lawful_played {A} (p : Env → M A) E w :
  lawful p →
  ∃ a w0 evs,
    p (calm E) w = (Ok a, w0) ∧ trace (p E w).2 = trace w ++ evs ∧
    (∀ L, trace w0 = trace w ++ L →
       run_of L a (p E w).1 evs ∧ run_under E (trace w) L a (p E w).1 evs) ∧
    (∀ a', (p E w).1 = Ok a' → p E w = (Ok a, w0)).
Proof.
  intros Hp. destruct (Hp E w) as (a & w0 & L & Hcalm & Htr & Hrun).
  exists a, w0, (play E (trace w) L).2.
  destruct (play E (trace w) L) as [[e|] evs] eqn:Hplay; simpl.
  - destruct Hrun as (w1 & Hr & Htr1). rewrite Hr.
    split_and!; [done | done | | done].
    intros L' HL'. rewrite Htr in HL'. apply app_inv_head in HL' as <-.
    unfold run_under. rewrite Hplay. split; [|done].
    apply play_Some in Hplay as (L1 & L2 & -> & -> & _).
    by apply (run_aborted _ _ L1 e L2).
  - apply play_None in Hplay as Hevs. subst evs. rewrite Hrun.
    split_and!; [done | done | | done].
    intros L' HL'. rewrite Htr in HL'. apply app_inv_head in HL' as <-.
    unfold run_under. rewrite Hplay. split; [constructor | done].
Qed.

(** An order that holds when nothing raises holds in every run. *)
Lemma before_run_of {A} L (a : A) o evs x y :
  run_of L a o evs → is_raised y = false → before x y L → before x y evs.
Proof.
  intros [|L1 e L2 ->] Hy Hb; [done|].
  intros pre post Hocc.
  destruct post as [|z post _] using rev_ind.
  - destruct Hocc as [Heq | Heq]; apply app_inj_tail in Heq as [<- Heq].
    + by subst y.
    + injection Heq as ->. apply (Hb L1 L2). by left.
  - rewrite !app_comm_cons, !(assoc_L (++)) in Hocc.
    destruct Hocc as [Heq | Heq]; apply app_inj_tail in Heq as [-> _].
    + apply (Hb pre (post ++ e :: L2)). left. by rewrite <- (assoc_L (++)).
    + apply (Hb pre (post ++ e :: L2)). right. by rewrite <- (assoc_L (++)).
Qed.

(** * The claims *)

(** ** Registration *)

(** C1, as stated, fails: a table whose name is [None] is turned away by
    the assertion of [add], although recovery has not started and no table
    of that name is registered. *)
Lemma add_nameless_counterexample : ¬ add_as_specified nameless new_world.
Proof.
  intros (_ & H & _). destruct (H eq_refl) as [_ Hrec].
  destruct Hrec as [Hok _]; [|discriminate Hok].
  intros (t & Hin & _). by apply elem_of_nil in Hin.
Qed.

(** C1, amended: on a manager in any state it can reach, [add table]
    raises the late-registration error exactly when recovery has started;
    otherwise it fails the assertion exactly when the table has no name;
    otherwise it raises the duplicate-name error exactly when a table of
    that name is registered; otherwise it returns the table, now recorded
    last under its name and indexed under its changelog topic name.  An
    error leaves the world as it was. *)
Theorem add_contract E ops table :
  let w := (run_ops E ops new_world).2 in
  let o := (add table w).1 in
  let w' := (add table w).2 in
  (o = Raise TooLateToAddTables ↔ _recovery_started (self w) = true) ∧
  (_recovery_started (self w) = false →
     (o = Raise AssertionError ↔ name table = None) ∧
     (∀ n, name table = Some n →
        (o = Raise (TableAlreadyExists n) ↔
         ∃ t, t ∈ values (self w) ∧ name t = Some n) ∧
        ((¬ ∃ t, t ∈ values (self w) ∧ name t = Some n) →
         o = Ok table ∧ w' = registered n table w))) ∧
  (∀ x, o = Raise x → w' = w).
Proof.
  intros w o w'.
  assert (registry_inv (self w)) as Hreg.
  { apply (consistent_run_ops E ops new_world), consistent_new_world. }
  subst o w'. rewrite add_cases.
  destruct (_recovery_started (self w)) eqn:Hs; simpl.
  { split_and!; [done | done | by intros x [= <-]]. }
  destruct (name table) as [n|] eqn:Hn; simpl.
  2:{ split_and!; [done | | by intros x [= <-]]. intros _. split; [done|].
      intros n [=]. }
  destruct (dict_contains n (data (self w))) eqn:Hd; simpl.
  - apply dict_contains_spec in Hd. rewrite (registry_inv_key _ _ Hreg) in Hd.
    split_and!; [done | | by intros x [= <-]]. intros _. split; [done|].
    intros n' [= <-]. split; [done|]. by intros [].
  - apply dict_contains_false in Hd. rewrite (registry_inv_key _ _ Hreg) in Hd.
    split_and!; [done | | done]. intros _. split; [done|].
    intros n' [= <-]. split; [|done]. split; [done | by intros ?].
Qed.

(** A run of [add_contract]: registering [orders], then [orders] again. *)
Lemma add_contract_witness :
  (add orders new_world).1 = Ok orders ∧
  (add orders (run_ops quiet [Add orders] new_world).2).1
    = Raise (TableAlreadyExists "orders").
Proof.
  split.
  - destruct (add_contract quiet [] orders) as (_ & H & _).
    destruct (H eq_refl) as [_ H']. destruct (H' "orders" eq_refl) as [_ Hok].
    apply Hok. intros (t & Hin & _). by apply elem_of_nil in Hin.
  - destruct (add_contract quiet [Add orders] orders) as (_ & H & _).
    destruct (H eq_refl) as [_ H']. destruct (H' "orders" eq_refl) as [Hdup _].
    apply Hdup. exists orders. split; [|done]. vm_compute. by left.
Defined.

(** Every entry of the index is a table of the list, under its own topic. *)
Lemma index_by_topic_lookup tables k t :
  index_by_topic tables !! k = Some t → t ∈ tables ∧ topic_name t = k.
Proof.
  induction tables as [|t' tables IH] using rev_ind; [done|].
  rewrite index_by_topic_snoc, lookup_insert. case_decide as Hk.
  - intros [= <-]. split; [|done]. apply elem_of_app. right. by left.
  - intros [Hin Ht]%IH. split; [|done]. apply elem_of_app. by left.
Qed.

(** With pairwise distinct topics, every table is found under its own. *)
Lemma index_by_topic_distinct tables t :
  NoDup (topic_name <$> tables) → t ∈ tables →
  index_by_topic tables !! topic_name t = Some t.
Proof.
  induction tables as [|t' tables IH] using rev_ind; [by intros _ ?%elem_of_nil|].
  rewrite fmap_app. intros (Hnd & Hdisj & _)%NoDup_app.
  rewrite index_by_topic_snoc, lookup_insert. fold (topic_name t').
  intros [Hin | ->%list_elem_of_singleton]%elem_of_app.
  - case_decide as Hk; [|by apply IH]. exfalso.
    apply (Hdisj (topic_name t)).
    + apply list_elem_of_fmap. by exists t.
    + rewrite <- Hk. simpl. by left.
  - by rewrite decide_True.
Qed.

(** C9, as stated, fails: two tables with names of their own and the same
    changelog topic are both registered, and the second takes the place of
    the first in the index. *)
Lemma shared_topic_counterexample :
  let run := run_ops quiet [Add orders; Add orders_copy] new_world in
  run.1 = [Ok (VTable orders); Ok (VTable orders_copy)] ∧
  orders ∈ values (self run.2) ∧
  (∀ k, _changelogs (self run.2) !! k ≠ Some orders) ∧
  ¬ index_one_to_one (self run.2).
Proof.
  assert (∀ k, _changelogs
                 (self (run_ops quiet [Add orders; Add orders_copy] new_world).2)
               !! k ≠ Some orders) as Hgone.
  { intros k Hk.
    change (index_by_topic [orders; orders_copy] !! k = Some orders) in Hk.
    pose proof Hk as [_ <-]%index_by_topic_lookup. vm_compute in Hk.
    discriminate Hk. }
  split; [reflexivity|]. split; [vm_compute; by left|]. split; [exact Hgone|].
  intros (Hall & _). destruct (Hall orders) as (k & Hk & _).
  - vm_compute. by left.
  - by apply (Hgone k).
Qed.

(** C9, amended: in every state a manager can reach, the changelog topics
    are exactly the changelog topic names of the registered tables, and
    every entry of the index is a registered table under its own topic
    name; when the registered tables have pairwise distinct changelog topic
    names, every registered table is moreover in the index, under its
    topic name and no other. *)
Theorem index_follows_tables E ops :
  let m := self (run_ops E ops new_world).2 in
  changelog_topics m = registered_topics m ∧
  (∀ k t, _changelogs m !! k = Some t → t ∈ values m ∧ topic_name t = k) ∧
  (NoDup (topic_name <$> values m) →
   ∀ t, t ∈ values m →
     _changelogs m !! topic_name t = Some t ∧
     ∀ k, _changelogs m !! k = Some t → k = topic_name t).
Proof.
  intros m.
  assert (registry_inv m) as Hreg.
  { apply (consistent_run_ops E ops new_world), consistent_new_world. }
  split; [by apply registry_inv_topics|].
  destruct Hreg as (_ & _ & Hidx). rewrite Hidx. split.
  - apply index_by_topic_lookup.
  - intros Hnd t Hin. split; [by apply index_by_topic_distinct|].
    by intros k [_ <-]%index_by_topic_lookup.
Qed.

(** A run of [index_follows_tables]: [orders] and [users] registered. *)
Lemma index_follows_tables_witness :
  let m := self (run_ops quiet [Add orders; Add users] new_world).2 in
  changelog_topics m = {[ "orders-changelog"; "users-changelog" ]} ∧
  _changelogs m !! "orders-changelog" = Some orders ∧
  _changelogs m !! "users-changelog" = Some users.
Proof.
  intros m.
  destruct (index_follows_tables quiet [Add orders; Add users]) as (Ht & _ & Hall).
  fold m in Ht, Hall.
  assert (NoDup (topic_name <$> values m)) as Hnd.
  { apply (bool_decide_unpack _). vm_compute. exact I. }
  split; [|split].
  - rewrite Ht. vm_compute. reflexivity.
  - apply (Hall Hnd orders). vm_compute. by left.
  - apply (Hall Hnd users). vm_compute. right. by left.
Defined.

(** ** Channel wiring *)

(** Every run of a well-behaved program is a run of whatever the calm run
    turns out to record. *)
Lemma lawful_shape {A} (p : Env → M A) E w :
  lawful p →
  ∃ a w0 evs,
    p (calm E) w = (Ok a, w0) ∧ trace (p E w).2 = trace w ++ evs ∧
    ∀ L, trace w0 = trace w ++ L → run_of L a (p E w).1 evs.
Proof.
  intros Hp. destruct (lawful_run_of p E w Hp) as (a & w0 & L & evs & Hc & Ht & He & Hr).
  exists a, w0, evs. split_and!; [done..|].
  intros L' HL'. rewrite Ht in HL'. by apply app_inv_head in HL' as <-.
Qed.

Lemma reachable_registry E ops :
  registry_inv (self (run_ops E ops new_world).2).
Proof. apply (consistent_run_ops E ops new_world), consistent_new_world. Qed.

Lemma elem_of_registered_topics m k :
  k ∈ registered_topics m ↔ ∃ t, t ∈ values m ∧ k = topic_name t.
Proof.
  unfold registered_topics. rewrite elem_of_list_to_set, list_elem_of_fmap.
  split; intros (t & H1 & H2); by exists t.
Qed.

(** C5: on a manager in any state it can reach, every run of
    [_update_channels] is a run of: wiring calls, then the read of the
    consumer's assignment, then one call of [pause_partitions], the last,
    on exactly the assigned partitions whose topic is the changelog topic
    name of a registered table.  The collaborators decide how far the run
    gets: it makes these calls one after the other, returns after the call
    of [pause_partitions] when none of them raises, and stops at the first
    that raises otherwise. *)
Theorem update_channels_pauses_changelogs E ops E' :
  let w := (run_ops E ops new_world).2 in
  let run := _update_channels E' w in
  ∃ W evs, Forall wiring W ∧
    let tps := consumer_assignment E' (trace w ++ W) in
    let paused := filter (λ tp, topic tp ∈ registered_topics (self w)) tps in
    trace run.2 = trace w ++ evs ∧
    run_of (W ++ [Assignment tps; PausePartitions paused]) tt run.1 evs ∧
    run_under E' (trace w) (W ++ [Assignment tps; PausePartitions paused])
      tt run.1 evs ∧
    (∀ tp, tp ∈ paused ↔
       tp ∈ tps ∧ ∃ t, t ∈ values (self w) ∧ topic tp = topic_name t).
Proof.
  intros w run. subst run.
  pose proof (registry_inv_topics _ (reachable_registry E ops)) as Htop.
  fold w in Htop. clearbody w.
  destruct (lawful_played _ E' w lawful_update_channels)
    as ([] & w0 & evs & Hcalm & Hevs & Hshape & _).
  apply update_channels_Ok in Hcalm as (W & HW & Htr).
  exists W, evs. split; [done|]. cbn zeta in *. cbn [calm consumer_assignment] in Htr.
  rewrite Htop in Htr.
  split_and!; [done | by apply Hshape | by apply Hshape |].
  intros tp. rewrite elem_of_filter, elem_of_registered_topics. tauto.
Qed.

(** A run of [update_channels_pauses_changelogs]: one table, its changelog
    partition and a partition of a live topic assigned, collaborators that
    do not raise. *)
Lemma update_channels_pauses_changelogs_witness :
  let w := (run_ops quiet [Add orders] new_world).2 in
  let run := _update_channels two_assigned w in
  run.1 = Ok tt ∧
  ∃ W, Forall wiring W ∧
    trace run.2 = trace w ++ W ++
      [Assignment {[ ("orders-changelog", 0%Z); ("live", 0%Z) ]};
       PausePartitions {[ ("orders-changelog", 0%Z) ]}].
Proof.
  intros w run.
  destruct (update_channels_pauses_changelogs quiet [Add orders] two_assigned)
    as (W & evs & HW & Htr & _ & Hunder & _).
  fold w in Htr, Hunder. fold run in Htr, Hunder.
  apply run_under_calm in Hunder as [Ho Hevs]; [|done].
  cbn [consumer_assignment two_assigned] in Hevs.
  assert (filter (λ tp : TP, topic tp ∈ registered_topics (self w))
            ({[ ("orders-changelog", 0%Z); ("live", 0%Z) ]} : gset TP)
          = {[ ("orders-changelog", 0%Z) ]}) as Hp
    by (vm_compute; reflexivity).
  rewrite Hp in Hevs.
  split; [exact Ho|]. exists W. split; [exact HW|]. by rewrite Htr, Hevs.
Defined.

Example update_channels_example :
  trace (_update_channels two_assigned (run_ops quiet [Add orders] new_world).2).2
  = [FlowControlQueue 0; CloneUsingQueue orders 0 1; TopicsAdd 1;
     MaybeStart orders;
     Assignment {[ ("orders-changelog", 0%Z); ("live", 0%Z) ]};
     PausePartitions {[ ("orders-changelog", 0%Z) ]}].
Proof. vm_compute. reflexivity. Qed.

(** ** Orders of events *)

(** [x] is in a prefix that holds no call of [y]. *)
Lemma before_prefix x y l1 l2 L :
  L = l1 ++ l2 → x ∈ l1 → Forall (λ e, e ≠ y ∧ e ≠ Raised y) l1 →
  before x y L.
Proof.
  intros -> Hx HF pre post Hocc.
  assert (∃ y', (y' = y ∨ y' = Raised y) ∧ l1 ++ l2 = pre ++ y' :: post)
    as (y' & Hy' & Heq) by (destruct Hocc; eauto).
  apply app_eq_inv in Heq as [(k & -> & Hk) | (k & -> & Hk)].
  - destruct k as [|z k].
    + by rewrite app_nil_r in Hx.
    + exfalso. apply Forall_app in HF as [_ [Hz _]%Forall_cons].
      injection Hk as -> _. destruct Hz, Hy'; congruence.
  - apply elem_of_app. by left.
Qed.

(** Events of one kind are none of them a call of an event of another. *)
Lemma Forall_other_kind (kind : Event → bool) (l : list Event) (y : Event) :
  Forall kind l → kind y = false → kind (Raised y) = false →
  Forall (λ e, e ≠ y ∧ e ≠ Raised y) l.
Proof.
  intros HF Hy Hr. eapply Forall_impl; [exact HF|].
  intros e He. split; intros ->; [by rewrite Hy in He | by rewrite Hr in He].
Qed.

Lemma callback_events_kind tables : Forall is_callback (callback_events tables).
Proof.
  unfold callback_events. induction tables as [|t l IH]; [constructor|].
  cbn [flat_map app]. by repeat constructor.
Qed.

Lemma notifications_kind r n tables :
  Forall is_notification (notifications r n tables).
Proof.
  unfold notifications. induction tables as [|t l IH]; [constructor|].
  cbn [flat_map app]. by repeat constructor.
Qed.


(** ** Recovery completion *)

(** Every run of [on_recovery_completed]. *)
Lemma on_recovery_completed_runs E w :
  let run := on_recovery_completed E w in
  ∃ S evs, S ≡ₚ callback_events (values (self w)) ∧
    let tps := consumer_assignment E
      (trace w ++ [LogInfo "Restore complete!"] ++ S ++
       [LogInfo "Perform seek"; PerformSeek; SetRecoveryCompleted]) in
    trace run.2 = trace w ++ evs ∧
    run_of (on_recovery_completed_events (self w) S tps) tt run.1 evs ∧
    (run.1 = Ok tt → self run.2 = set_recovery_completed true (self w)).
Proof.
  intros run. subst run.
  destruct (lawful_shape _ E w lawful_on_recovery_completed)
    as ([] & w0 & evs & Hcalm & Hevs & Hshape).
  apply on_recovery_completed_Ok in Hcalm as (S & HS & _ & Htr).
  exists S, evs. split; [done|]. cbn zeta.
  split_and!; [done | by apply Hshape |].
  destruct (on_recovery_completed E w) as [[[]|x] w'] eqn:Hrun; [|done].
  intros _. by apply on_recovery_completed_Ok in Hrun as (? & _ & ? & _).
Qed.


(** Show that a prefix written out with [::] and [++] holds no call of an
    event, given the lists of one kind that occur in it. *)
Ltac no_call_of :=
  repeat first
    [ apply Forall_nil_2
    | apply Forall_cons; split; [split; discriminate|]
    | apply Forall_app; split
    | by eapply (Forall_other_kind is_callback)
    | by eapply (Forall_other_kind is_notification)
    | by eapply (Forall_other_kind wiring) ].



(** C4: on a manager in any state it can reach, when
    [on_recovery_completed] returns it has called [resume_partitions] once,
    right after reading the consumer's assignment, on exactly the assigned
    partitions whose topic is not the changelog topic name of a registered
    table. *)
Theorem recovery_completion_resumes E ops E' w' :
  let w := (run_ops E ops new_world).2 in
  on_recovery_completed E' w = (Ok tt, w') →
  ∃ pre post tps,
    let resumed := filter (λ tp, topic tp ∉ registered_topics (self w)) tps in
    trace w' = trace w ++ pre ++ [Assignment tps; ResumePartitions resumed] ++ post ∧
    tps = consumer_assignment E' (trace w ++ pre) ∧
    (∀ X, ResumePartitions X ∉ pre ++ post) ∧
    (∀ tp, tp ∈ resumed ↔
       tp ∈ tps ∧ ¬ ∃ t, t ∈ values (self w) ∧ topic tp = topic_name t).
Proof.
  intros w Hrun.
  pose proof (registry_inv_topics _ (reachable_registry E ops)) as Htop.
  fold w in Htop. clearbody w.
  apply on_recovery_completed_Ok in Hrun as (S & HS & _ & Htr).
  cbn zeta in Htr. unfold on_recovery_completed_events in Htr.
  rewrite Htop in Htr.
  exists ([LogInfo "Restore complete!"] ++ S ++
          [LogInfo "Perform seek"; PerformSeek; SetRecoveryCompleted]),
         [FetcherMaybeStart; SetRebalancing false; LogInfo "Worker ready"],
         (consumer_assignment E'
            (trace w ++ [LogInfo "Restore complete!"] ++ S ++
             [LogInfo "Perform seek"; PerformSeek; SetRecoveryCompleted])).
  cbn zeta. split_and!.
  - rewrite Htr. by rewrite <- !(assoc_L (++)).
  - done.
  - intros X Hin.
    assert (Forall is_callback S) as HSk
      by (rewrite HS; apply callback_events_kind).
    assert (Forall (λ e, e ≠ ResumePartitions X)
              (([LogInfo "Restore complete!"] ++ S ++
                [LogInfo "Perform seek"; PerformSeek; SetRecoveryCompleted]) ++
               [FetcherMaybeStart; SetRebalancing false; LogInfo "Worker ready"]))
      as HF.
    { repeat first
        [ apply Forall_nil_2 | apply Forall_cons; split; [discriminate|]
        | apply Forall_app; split ].
      eapply Forall_impl; [exact HSk|]. by intros e He ->. }
    rewrite Forall_forall in HF. by apply (HF _ Hin).
  - intros tp. rewrite elem_of_filter, elem_of_registered_topics. tauto.
Qed.

(** A run of [recovery_completion_resumes]: [orders] registered and
    rebalanced, its changelog partition and a live one assigned; only the
    live one is resumed. *)
Lemma recovery_completion_resumes_witness :
  ∃ pre post,
    trace (on_recovery_completed two_assigned
             (run_ops quiet [Add orders; OnRebalance ∅ ∅ ∅] new_world).2).2
    = trace (run_ops quiet [Add orders; OnRebalance ∅ ∅ ∅] new_world).2 ++
      pre ++
      [Assignment {[ ("orders-changelog", 0%Z); ("live", 0%Z) ]};
       ResumePartitions {[ ("live", 0%Z) ]}] ++ post.
Proof.
  destruct (recovery_completion_resumes quiet [Add orders; OnRebalance ∅ ∅ ∅]
              two_assigned
              (on_recovery_completed two_assigned
                 (run_ops quiet [Add orders; OnRebalance ∅ ∅ ∅] new_world).2).2)
    as (pre & post & tps & Htr & Htps & _).
  { vm_compute. reflexivity. }
  exists pre, post. rewrite Htr, Htps. vm_compute. reflexivity.
Defined.

(** C10: with no table registered, [on_recovery_completed] never calls
    [asyncio.wait] on the empty list, which would raise: every run is a run
    of the seek, the setting of [recovery_completed], the resumption of the
    assigned partitions that are not changelog partitions, the start of the
    fetcher and the clearing of the rebalancing flag, and with collaborators
    that do not raise it returns with [recovery_completed] set. *)
Theorem recovery_completion_without_tables E w :
  values (self w) = [] →
  let run := on_recovery_completed E w in
  ∃ evs,
    let tps := consumer_assignment E
      (trace w ++ [LogInfo "Restore complete!"; LogInfo "Perform seek";
                   PerformSeek; SetRecoveryCompleted]) in
    (asyncio_wait E [] w).1 = Raise EmptyWaitSet ∧
    run.1 ≠ Raise EmptyWaitSet ∧
    trace run.2 = trace w ++ evs ∧
    run_of
      [LogInfo "Restore complete!"; LogInfo "Perform seek"; PerformSeek;
       SetRecoveryCompleted; Assignment tps;
       ResumePartitions (filter (λ tp, topic tp ∉ changelog_topics (self w)) tps);
       FetcherMaybeStart; SetRebalancing false; LogInfo "Worker ready"]
      tt run.1 evs ∧
    (run.1 = Ok tt → recovery_completed (self run.2) = true) ∧
    (on_recovery_completed (calm E) w).1 = Ok tt.
Proof.
  intros Hempty run.
  destruct (on_recovery_completed_runs E w) as (S & evs & HS & Hevs & Hrun & Hself).
  fold run in Hevs, Hrun, Hself. rewrite Hempty in HS. simpl in HS.
  apply Permutation_nil_r in HS as ->.
  exists evs. cbn zeta. split_and!; [done | | done | exact Hrun | |].
  - intros Hr. rewrite Hr in Hrun. inversion Hrun.
  - intros Hok. by rewrite (Hself Hok).
  - destruct (lawful_on_recovery_completed E w) as ([] & w0 & L & Hcalm & _).
    by rewrite Hcalm.
Qed.

(** A run of [recovery_completion_without_tables]: a fresh manager. *)
Lemma recovery_completion_without_tables_witness :
  (on_recovery_completed (calm two_assigned) new_world).1 = Ok tt.
Proof.
  destruct (recovery_completion_without_tables two_assigned new_world eq_refl)
    as (evs & _ & _ & _ & _ & _ & Hok).
  exact Hok.
Defined.

Example recovery_completion_without_tables_example :
  on_recovery_completed two_assigned new_world
  = (Ok tt,
     {| self := set_recovery_completed true __init__;
        trace :=
          [LogInfo "Restore complete!"; LogInfo "Perform seek"; PerformSeek;
           SetRecoveryCompleted;
           Assignment {[ ("orders-changelog", 0%Z); ("live", 0%Z) ]};
           ResumePartitions {[ ("orders-changelog", 0%Z); ("live", 0%Z) ]};
           FetcherMaybeStart; SetRebalancing false; LogInfo "Worker ready"];
        next_ref := 0 |}).
Proof. vm_compute. reflexivity. Qed.

(** ** Rebalance *)

Lemma registry_inv_NoDup_values m : registry_inv m → NoDup (values m).
Proof.
  intros (Hnd & Hnames & _). unfold values. rewrite Forall_forall in Hnames.
  apply NoDup_fmap_2_strong; [|by apply NoDup_fmap_1 in Hnd].
  intros [k1 t1] [k2 t2] H1 H2 Heq. simpl in Heq. subst t2.
  apply Hnames in H1, H2. simpl in *. congruence.
Qed.

Lemma notifications_app r n l1 l2 :
  notifications r n (l1 ++ l2) = notifications r n l1 ++ notifications r n l2.
Proof. unfold notifications. apply flat_map_app. Qed.

Lemma notifications_Forall (P : Event → Prop) r n tables :
  (∀ t, t ∈ tables → P (PartitionsRevoked t r) ∧ P (PartitionsAssigned t n)) →
  Forall P (notifications r n tables).
Proof.
  unfold notifications. induction tables as [|t l IH]; intros H; [constructor|].
  cbn [flat_map app]. destruct (H t) as [? ?]; [by left|].
  repeat (constructor; [done|]). apply IH. intros t' Ht'. apply H. by right.
Qed.

(** Every run of [on_rebalance]. *)
Lemma on_rebalance_runs E a r n w :
  let run := on_rebalance E a r n w in
  ∃ W rec evs, Forall wiring W ∧
    let tps := consumer_assignment E
      (trace w ++ [SetRecoveryStarted] ++ notifications r n (values (self w)) ++ W) in
    trace run.2 = trace w ++ evs ∧
    run_of (on_rebalance_events (self w) a r n W tps rec) tt run.1 evs ∧
    run_under E (trace w) (on_rebalance_events (self w) a r n W tps rec)
      tt run.1 evs.
Proof.
  intros run. subst run.
  destruct (lawful_played _ E w (lawful_on_rebalance a r n))
    as ([] & w0 & evs & Hcalm & Hevs & Hshape & _).
  apply on_rebalance_Ok in Hcalm as (W & rec & HW & Htr).
  exists W, rec, evs. split; [done|]. cbn zeta.
  split_and!; [done | by apply Hshape | by apply Hshape].
Qed.

(** [on_rebalance] sets [_recovery_started] first, and nothing after
    resets it. *)
Lemma on_rebalance_started E a r n w :
  _recovery_started (self (on_rebalance E a r n w).2) = true.
Proof.
  pose proof (on_self_on_rebalance
    (stays (λ m, _recovery_started m = true)) E a r n) as H.
  assert (on_rebalance E a r n w
          = on_rebalance E a r n
              {| self := set_recovery_started true (self w);
                 trace := trace w; next_ref := next_ref w |}) as -> by done.
  apply H; [writes.. | done].
Qed.

(** C2: on a manager in any state it can reach, every run of
    [on_rebalance assigned revoked newly_assigned] sets [_recovery_started]
    before it notifies any table; notifies every table of the revoked
    partitions before it notifies it of the newly assigned ones, and has
    done both for a table before it turns to a table registered later; and
    calls the recovery coordinator with the same three sets after the
    channel wiring has paused the changelog partitions.  The collaborators
    decide how far the run gets: it sets the flag, notifies every table,
    wires, pauses, and calls the coordinator, one call after the other; it
    returns after the call of the coordinator when none of the calls
    raises, and stops at the first that raises otherwise. *)
Theorem rebalance_order E ops E' a r n :
  let w := (run_ops E ops new_world).2 in
  let run := on_rebalance E' a r n w in
  ∃ W rec tps evs,
    let paused := filter (λ tp, topic tp ∈ changelog_topics (self w)) tps in
    Forall wiring W ∧
    trace run.2 = trace w ++ evs ∧
    run_of (on_rebalance_events (self w) a r n W tps rec) tt run.1 evs ∧
    run_under E' (trace w) (on_rebalance_events (self w) a r n W tps rec)
      tt run.1 evs ∧
    tps = consumer_assignment E'
            (trace w ++ [SetRecoveryStarted] ++
             notifications r n (values (self w)) ++ W) ∧
    _recovery_started (self run.2) = true ∧
    (∀ e, is_notification e → before SetRecoveryStarted e evs) ∧
    (∀ t, t ∈ values (self w) →
       before (PartitionsRevoked t r) (PartitionsAssigned t n) evs) ∧
    (∀ l1 t1 l2 t2 l3, values (self w) = l1 ++ t1 :: l2 ++ t2 :: l3 →
       before (PartitionsAssigned t1 n) (PartitionsRevoked t2 r) evs) ∧
    before (PausePartitions paused) (RecoveryOnRebalance rec a r n) evs.
Proof.
  intros w run.
  pose proof (registry_inv_NoDup_values _ (reachable_registry E ops)) as Hnd.
  fold w in Hnd. clearbody w.
  destruct (on_rebalance_runs E' a r n w)
    as (W & rec & evs & HW & Hevs & Hrun & Hunder).
  fold run in Hevs, Hrun, Hunder. cbn zeta in Hrun, Hunder.
  set (tps := consumer_assignment E' _) in Hrun, Hunder.
  exists W, rec, tps, evs. cbn zeta.
  split_and!;
    [done | done | done | done | done | apply on_rebalance_started | | | |].
  - intros e He. apply (before_run_of _ _ _ _ _ _ Hrun); [by destruct e|].
    eapply (before_prefix _ _ [SetRecoveryStarted]); [reflexivity | by left |].
    apply Forall_cons. split; [|constructor].
    split; [intros <-; done | discriminate].
  - intros t (l1 & l2 & Heq & Hfirst)%list_elem_of_split_l.
    apply (before_run_of _ _ _ _ _ _ Hrun); [done|].
    eapply (before_prefix _ _
              ([SetRecoveryStarted] ++ notifications r n l1 ++
               [PartitionsRevoked t r])).
    + unfold on_rebalance_events. rewrite Heq.
      rewrite (notifications_app r n l1 (t :: l2)).
      change (notifications r n (t :: l2))
        with ([PartitionsRevoked t r] ++
              [PartitionsAssigned t n] ++ notifications r n l2).
      rewrite <- !(assoc_L (++)). reflexivity.
    + rewrite !elem_of_app. right. right. by left.
    + apply Forall_app. split; [no_call_of|].
      apply Forall_app. split; [|no_call_of].
      apply notifications_Forall. intros t' Ht'.
      split; [done|]. split; [|done]. intros [= ->]. done.
  - intros l1 t1 l2 t2 l3 Heq. rewrite Heq in Hnd.
    apply NoDup_app in Hnd as (_ & Hl1 & Hnd).
    apply NoDup_cons in Hnd as [Ht1 _].
    apply (before_run_of _ _ _ _ _ _ Hrun); [done|].
    eapply (before_prefix _ _
              ([SetRecoveryStarted] ++ notifications r n l1 ++
               [PartitionsRevoked t1 r; PartitionsAssigned t1 n])).
    + unfold on_rebalance_events. rewrite Heq.
      rewrite (notifications_app r n l1 (t1 :: l2 ++ t2 :: l3)).
      change (notifications r n (t1 :: l2 ++ t2 :: l3))
        with ([PartitionsRevoked t1 r; PartitionsAssigned t1 n] ++
              notifications r n (l2 ++ t2 :: l3)).
      rewrite <- !(assoc_L (++)). reflexivity.
    + rewrite !elem_of_app. right. right. right. by left.
    + apply Forall_app. split; [no_call_of|].
      apply Forall_app. split.
      * apply notifications_Forall. intros t' Ht'.
        split; [|done]. split; [|done]. intros [= ->].
        apply (Hl1 t2 Ht'). right. rewrite elem_of_app. right. by left.
      * apply Forall_cons. split; [|no_call_of].
        split; [|done]. intros [= ->]. apply Ht1.
        rewrite elem_of_app. right. by left.
  - apply (before_run_of _ _ _ _ _ _ Hrun); [done|].
    eapply (before_prefix _ _
              ([SetRecoveryStarted] ++ notifications r n (values (self w)) ++
               W ++ [Assignment tps;
                     PausePartitions
                       (filter (λ tp, topic tp ∈ changelog_topics (self w)) tps)])).
    + unfold on_rebalance_events. rewrite <- !(assoc_L (++)). reflexivity.
    + rewrite !elem_of_app. right. right. right. right. by left.
    + pose proof (notifications_kind r n (values (self w))). no_call_of.
Qed.

(** A run of [rebalance_order]: two tables, collaborators that do not
    raise. *)
Lemma rebalance_order_witness :
  let w := (run_ops quiet [Add orders; Add users] new_world).2 in
  let a : gset TP := {[ ("orders-changelog", 0%Z); ("live", 0%Z) ]} in
  let r : gset TP := {[ ("live", 1%Z) ]} in
  let n : gset TP := {[ ("orders-changelog", 0%Z) ]} in
  let run := on_rebalance two_assigned a r n w in
  run.1 = Ok tt ∧
  ∃ W rec, Forall wiring W ∧
    trace run.2 = trace w ++
      [SetRecoveryStarted;
       PartitionsRevoked orders r; PartitionsAssigned orders n;
       PartitionsRevoked users r; PartitionsAssigned users n] ++
      W ++
      [Assignment a; PausePartitions {[ ("orders-changelog", 0%Z) ]};
       NewRecovery rec; RecoveryOnRebalance rec a r n].
Proof.
  intros w a r n run.
  destruct (rebalance_order quiet [Add orders; Add users] two_assigned a r n)
    as (W & rec & tps & evs & HW & Htr & _ & Hunder & Htps & _).
  fold w in Htr, Hunder, Htps. fold run in Htr, Hunder.
  apply run_under_calm in Hunder as [Ho Hevs]; [|done].
  cbn [consumer_assignment two_assigned] in Htps. subst tps.
  unfold on_rebalance_events in Hevs.
  assert (values (self w) = [orders; users]) as Hv by (vm_compute; reflexivity).
  assert (_recovery (self w) = None) as Hr by (vm_compute; reflexivity).
  assert (filter (λ tp : TP, topic tp ∈ changelog_topics (self w))
            ({[ ("orders-changelog", 0%Z); ("live", 0%Z) ]} : gset TP)
          = {[ ("orders-changelog", 0%Z) ]}) as Hp
    by (vm_compute; reflexivity).
  rewrite Hv, Hr, Hp in Hevs.
  split; [exact Ho|]. exists W, rec. split; [exact HW|].
  by rewrite Htr, Hevs.
Defined.

(** ** The two latches *)

(** C6: both flags are unset on a new manager; [on_rebalance] sets
    [_recovery_started] in every run, and [on_recovery_completed] sets
    [recovery_completed] in every run that returns; no operation, and so
    no sequence of operations, unsets either flag, whatever its outcome;
    and no operation other than these two changes them. *)
Theorem recovery_latches :
  (_recovery_started __init__ = false ∧ recovery_completed __init__ = false) ∧
  (∀ E a r n w, _recovery_started (self (on_rebalance E a r n w).2) = true) ∧
  (∀ E w, (on_recovery_completed E w).1 = Ok tt →
          recovery_completed (self (on_recovery_completed E w).2) = true) ∧
  (∀ E ops w,
     (_recovery_started (self w) = true →
      _recovery_started (self (run_ops E ops w).2) = true) ∧
     (recovery_completed (self w) = true →
      recovery_completed (self (run_ops E ops w).2) = true)) ∧
  (∀ E op w, (∀ a r n, op ≠ OnRebalance a r n) →
     _recovery_started (self (run_op E op w).2) = _recovery_started (self w)) ∧
  (∀ E op w, op ≠ OnRecoveryCompleted →
     recovery_completed (self (run_op E op w).2) = recovery_completed (self w)).
Proof.
  split; [done|]. split_and!.
  - apply on_rebalance_started.
  - intros E w Hok.
    destruct (on_recovery_completed_runs E w) as (_ & _ & _ & _ & _ & Hself).
    by rewrite (Hself Hok).
  - intros E ops w. split.
    + apply (respects_run_ops (on_self (stays (λ m, _recovery_started m = true)))).
      intros op. apply on_self_run_op; first [apply _ | writes].
    + apply (respects_run_ops (on_self (stays (λ m, recovery_completed m = true)))).
      intros op. apply on_self_run_op; first [apply _ | writes].
  - intros E op w Hop.
    change (on_self (same _recovery_started) w (run_op E op w).2).
    destruct op; try (by destruct (Hop assigned revoked newly_assigned));
      apply on_self_then; try apply _;
      first [ apply on_self_add | apply on_self_on_start
            | apply on_self_update_channels | apply on_self_on_stop
            | apply on_self_on_recovery_completed
            | apply on_self_changelog_queue | apply on_self_recovery
            | apply respects_gets ];
      first [apply _ | writes].
  - intros E op w Hop.
    change (on_self (same recovery_completed) w (run_op E op w).2).
    destruct op; try done;
      apply on_self_then; try apply _;
      first [ apply on_self_add | apply on_self_on_start
            | apply on_self_update_channels | apply on_self_on_stop
            | apply on_self_on_rebalance
            | apply on_self_changelog_queue | apply on_self_recovery
            | apply respects_gets ];
      first [apply _ | writes].
Qed.

(** A run of [recovery_latches]: after a rebalance and a completed
    recovery both flags are set, and stopping the manager leaves them set. *)
Lemma recovery_latches_witness :
  let w := (run_ops quiet [Add orders; OnRebalance ∅ ∅ ∅] new_world).2 in
  _recovery_started (self w) = true ∧
  recovery_completed (self (on_recovery_completed quiet w).2) = true ∧
  recovery_completed
    (self (run_ops quiet [OnStop] (on_recovery_completed quiet w).2).2) = true.
Proof.
  intros w.
  destruct recovery_latches as (_ & _ & Hdone & Hkeep & _).
  split; [reflexivity|].
  assert (recovery_completed (self (on_recovery_completed quiet w).2) = true)
    as Hc by (apply Hdone; reflexivity).
  split; [exact Hc|].
  by apply (Hkeep quiet [OnStop]).
Defined.

(** ** Shutdown *)

Lemma elem_of_constructed_recoveries tr r :
  r ∈ constructed_recoveries tr ↔ NewRecovery r ∈ tr.
Proof.
  unfold constructed_recoveries. rewrite list_elem_of_omap. split.
  - intros (e & He & Hr). destruct e; try done. by injection Hr as ->.
  - intros He. by exists (NewRecovery r).
Qed.

(** C7: on a manager in any state it can reach, every run of [on_stop]
    stops the fetcher first, then the recovery coordinator exactly if one
    has been constructed, then every registered table, in the order of
    registration; it constructs nothing and writes no attribute.  The
    collaborators decide how far the run gets: it makes these calls one
    after the other, returns after the last when none of them raises, and
    stops at the first that raises otherwise. *)
Theorem stop_order E ops E' :
  let w := (run_ops E ops new_world).2 in
  let run := on_stop E' w in
  ∃ evs,
    trace run.2 = trace w ++ evs ∧
    run_of
      ([FetcherStop] ++
       match _recovery (self w) with Some r => [RecoveryStop r] | None => [] end ++
       (TableStop <$> values (self w)))
      tt run.1 evs ∧
    run_under E' (trace w)
      ([FetcherStop] ++
       match _recovery (self w) with Some r => [RecoveryStop r] | None => [] end ++
       (TableStop <$> values (self w)))
      tt run.1 evs ∧
    self run.2 = self w ∧
    constructed_recoveries (trace run.2) = constructed_recoveries (trace w) ∧
    (∀ r, _recovery (self w) = Some r ↔ NewRecovery r ∈ trace w) ∧
    (∀ r, before FetcherStop (RecoveryStop r) evs) ∧
    (∀ t, before FetcherStop (TableStop t) evs) ∧
    (∀ r t, _recovery (self w) = Some r →
            before (RecoveryStop r) (TableStop t) evs).
Proof.
  intros w run.
  pose proof (consistent_run_ops E ops new_world consistent_new_world) as Hinv.
  fold w in Hinv. clearbody w.
  destruct (lawful_played _ E' w lawful_on_stop)
    as ([] & w0 & evs & Hcalm & Hevs & Hshape & _).
  apply on_stop_Ok in Hcalm as ->.
  destruct (Hshape _ eq_refl) as [Hrun Hunder]. clear Hshape.
  rename Hrun into Hshape. fold run in Hevs, Hshape, Hunder.
  unfold on_stop_calls in Hshape, Hunder.
  assert (self run.2 = self w) as Hself.
  { apply (on_self_on_stop (same id) E' w). }
  assert (consistent run.2) as Hinv'.
  { by apply (respects_on_stop (latch consistent) consistent_record E' w). }
  exists evs. split_and!; [done | done | done | done | | | | |].
  - destruct Hinv as (_ & -> & _), Hinv' as (_ & -> & _). by rewrite Hself.
  - intros r. destruct Hinv as (_ & Hr & _).
    rewrite <- elem_of_constructed_recoveries, Hr.
    destruct (_recovery (self w)) as [r'|]; simpl.
    + rewrite list_elem_of_singleton. split; [by intros [= ->] | by intros ->].
    + split; [done | by intros ?%elem_of_nil].
  - intros r. apply (before_run_of _ _ _ _ _ _ Hshape); [done|].
    eapply (before_prefix _ _ [FetcherStop]); [reflexivity | by left |].
    no_call_of.
  - intros t. apply (before_run_of _ _ _ _ _ _ Hshape); [done|].
    eapply (before_prefix _ _ [FetcherStop]); [reflexivity | by left |].
    no_call_of.
  - intros r t Hr. rewrite Hr in Hshape.
    apply (before_run_of _ _ _ _ _ _ Hshape); [done|].
    eapply (before_prefix _ _ ([FetcherStop] ++ [RecoveryStop r]));
      [by rewrite <- (assoc_L (++)) | by right; left |].
    no_call_of.
Qed.

(** A run of [stop_order]: a started manager with one table, stopped with
    collaborators that do not raise. *)
Lemma stop_order_witness :
  let w := (run_ops quiet [Add orders; OnStart] new_world).2 in
  let run := on_stop quiet w in
  run.1 = Ok tt ∧
  trace run.2 = trace w ++ [FetcherStop; RecoveryStop 2; TableStop orders].
Proof.
  intros w run.
  destruct (stop_order quiet [Add orders; OnStart] quiet)
    as (evs & Htr & _ & Hunder & _).
  fold w in Htr, Hunder. fold run in Htr, Hunder.
  apply run_under_calm in Hunder as [Ho Hevs]; [|done].
  assert (_recovery (self w) = Some 2) as Hr by (vm_compute; reflexivity).
  assert (values (self w) = [orders]) as Hv by (vm_compute; reflexivity).
  rewrite Hr, Hv in Hevs.
  split; [exact Ho|]. by rewrite Htr, Hevs.
Defined.

(** Shutdown before and after the recovery coordinator exists. *)
Example stop_order_example :
  trace (on_stop quiet (run_ops quiet [Add orders; Add users] new_world).2).2
  = [FetcherStop; TableStop orders; TableStop users] ∧
  trace (on_stop quiet (run_ops quiet [Add orders; Add users; GetRecovery] new_world).2).2
  = [NewRecovery 0; FetcherStop; RecoveryStop 0; TableStop orders; TableStop users].
Proof. split; vm_compute; reflexivity. Qed.

(** ** The lazy singletons *)

(** Once cached, an instance stays cached through every operation. *)
Lemma cached_queue_stays E ops w q :
  _changelog_queue (self w) = Some q →
  _changelog_queue (self (run_ops E ops w).2) = Some q.
Proof.
  apply (respects_run_ops (on_self (stays (λ m, _changelog_queue m = Some q)))).
  intros op. apply on_self_run_op; first [apply _ | writes].
Qed.

Lemma cached_recovery_stays E ops w r :
  _recovery (self w) = Some r →
  _recovery (self (run_ops E ops w).2) = Some r.
Proof.
  apply (respects_run_ops (on_self (stays (λ m, _recovery m = Some r)))).
  intros op. apply on_self_run_op; first [apply _ | writes].
Qed.

(** C8: take any operations, then an access to [changelog_queue] that
    returns, then any operations, then another access that returns.  The
    second access returns the instance the first returned and constructs
    nothing, and in the whole history exactly that one queue has been
    constructed; if none had been constructed before the first access, that
    access constructed it.  The same holds of [recovery].  At every point
    of a manager's life the instances constructed so far are the cached
    one, if any, and no other.  An access does return unless it has to
    construct and the constructor raises; and once an access has returned,
    every later access returns, the same instance, whatever the
    collaborators do. *)
Theorem lazy_singletons E ops1 Ea E' ops2 Eb :
  let w := (run_ops E ops1 new_world).2 in
  (constructed_queues (trace w) = option_list (_changelog_queue (self w)) ∧
   constructed_recoveries (trace w) = option_list (_recovery (self w))) ∧
  (∀ q1 q2 wa wb,
     changelog_queue Ea w = (Ok q1, wa) →
     changelog_queue Eb (run_ops E' ops2 wa).2 = (Ok q2, wb) →
     q2 = q1 ∧ wb = (run_ops E' ops2 wa).2 ∧
     constructed_queues (trace wb) = [q1] ∧
     (constructed_queues (trace w) = [] →
      trace wa = trace w ++ [FlowControlQueue q1])) ∧
  (∀ r1 r2 wa wb,
     recovery Ea w = (Ok r1, wa) →
     recovery Eb (run_ops E' ops2 wa).2 = (Ok r2, wb) →
     r2 = r1 ∧ wb = (run_ops E' ops2 wa).2 ∧
     constructed_recoveries (trace wb) = [r1] ∧
     (constructed_recoveries (trace w) = [] →
      trace wa = trace w ++ [NewRecovery r1])) ∧
  ((∃ q wa, changelog_queue Ea w = (Ok q, wa)) ↔
   is_Some (_changelog_queue (self w)) ∨
   raises Ea (trace w) (FlowControlQueue (next_ref w)) = false) ∧
  ((∃ r wa, recovery Ea w = (Ok r, wa)) ↔
   is_Some (_recovery (self w)) ∨
   raises Ea (trace w) (NewRecovery (next_ref w)) = false) ∧
  (∀ q1 wa,
     changelog_queue Ea w = (Ok q1, wa) →
     changelog_queue Eb (run_ops E' ops2 wa).2
     = (Ok q1, (run_ops E' ops2 wa).2)) ∧
  (∀ r1 wa,
     recovery Ea w = (Ok r1, wa) →
     recovery Eb (run_ops E' ops2 wa).2 = (Ok r1, (run_ops E' ops2 wa).2)).
Proof.
  intros w.
  pose proof (consistent_run_ops E ops1 new_world consistent_new_world) as Hinv.
  fold w in Hinv. clearbody w. split_and!.
  - by destruct Hinv as (? & ? & _).
  - by destruct Hinv as (? & ? & _).
  - intros q1 q2 wa wb H1 H2.
    assert (consistent wa) as Hwa.
    { pose proof (consistent_changelog_queue Ea w Hinv) as H. by rewrite H1 in H. }
    apply changelog_queue_Ok in H1 as (Hc1 & Htr1 & _).
    pose proof (cached_queue_stays E' ops2 wa q1 Hc1) as Hc2.
    apply changelog_queue_Ok in H2 as (_ & _ & Hsame).
    destruct (Hsame q1 Hc2) as [-> ->]. split_and!; [done | done | |].
    + pose proof (consistent_run_ops E' ops2 wa Hwa) as (Hq & _).
      by rewrite Hq, Hc2.
    + intros Hnone. destruct Hinv as (Hq & _). rewrite Hnone in Hq.
      destruct (_changelog_queue (self w)); [done|]. done.
  - intros r1 r2 wa wb H1 H2.
    assert (consistent wa) as Hwa.
    { pose proof (consistent_recovery Ea w Hinv) as H. by rewrite H1 in H. }
    apply recovery_Ok in H1 as (Hc1 & Htr1 & _).
    pose proof (cached_recovery_stays E' ops2 wa r1 Hc1) as Hc2.
    apply recovery_Ok in H2 as (_ & _ & Hsame).
    destruct (Hsame r1 Hc2) as [-> ->]. split_and!; [done | done | |].
    + pose proof (consistent_run_ops E' ops2 wa Hwa) as (_ & Hr & _).
      by rewrite Hr, Hc2.
    + intros Hnone. destruct Hinv as (_ & Hr & _). rewrite Hnone in Hr.
      destruct (_recovery (self w)); [done|]. done.
  - apply changelog_queue_returns.
  - apply recovery_returns.
  - intros q1 wa H1. apply changelog_queue_Ok in H1 as (Hc1 & _).
    apply changelog_queue_cached. by apply cached_queue_stays.
  - intros r1 wa H1. apply recovery_Ok in H1 as (Hc1 & _).
    apply recovery_cached. by apply cached_recovery_stays.
Qed.

(** A run of [lazy_singletons], for the queue and for the coordinator: the
    instance is read on a fresh manager, a table is registered and the
    manager started and rebalanced, and the instance is read again. *)
Lemma lazy_singletons_witness :
  let ops := [Add orders; OnStart; OnRebalance ∅ ∅ ∅] in
  let w1 := (changelog_queue quiet new_world).2 in
  let w2 := (run_ops quiet ops w1).2 in
  let v1 := (recovery quiet new_world).2 in
  let v2 := (run_ops quiet ops v1).2 in
  ((changelog_queue quiet new_world).1 = Ok 0 ∧
   changelog_queue quiet w2 = (Ok 0, w2) ∧
   constructed_queues (trace w2) = [0]) ∧
  ((recovery quiet new_world).1 = Ok 0 ∧
   recovery quiet v2 = (Ok 0, v2) ∧
   constructed_recoveries (trace v2) = [0]).
Proof.
  intros ops w1 w2 v1 v2.
  destruct (lazy_singletons quiet [] quiet quiet ops quiet)
    as (_ & Hq & Hr & Hqret & Hrret & Hq2 & Hr2).
  split.
  - destruct Hqret as [_ Hret].
    destruct Hret as (q & wa & Ha); [by right|].
    assert (changelog_queue quiet new_world = (Ok 0, w1)) as H1
      by (vm_compute; reflexivity).
    pose proof (Hq2 0 w1 H1) as H2.
    destruct (Hq 0 0 w1 w2 H1 H2) as (_ & _ & Hc & _).
    split; [by rewrite H1|]. split; [exact H2 | exact Hc].
  - destruct Hrret as [_ Hret].
    destruct Hret as (r & wa & Ha); [by right|].
    assert (recovery quiet new_world = (Ok 0, v1)) as H1
      by (vm_compute; reflexivity).
    pose proof (Hr2 0 v1 H1) as H2.
    destruct (Hr 0 0 v1 v2 H1 H2) as (_ & _ & Hc & _).
    split; [by rewrite H1|]. split; [exact H2 | exact Hc].
Defined.

(** ** The scenario of the specification

    One table [orders] with changelog topic [orders-changelog], whose
    partition 0 is all that is assigned: the rebalance pauses it and hands
    the three sets on to the recovery coordinator; recovery completion then
    runs the callback of the table, seeks, resumes nothing, and starts the
    fetcher. *)

Example orders_scenario :
  let tps : gset TP := {[ ("orders-changelog", 0%Z) ]} in
  let run :=
    run_ops changelog_assigned
      [Add orders; OnRebalance tps ∅ tps; OnRecoveryCompleted] new_world in
  run.1 = [Ok (VTable orders); Ok VNone; Ok VNone] ∧
  trace run.2
  = [SetRecoveryStarted;
     PartitionsRevoked orders ∅; PartitionsAssigned orders tps;
     FlowControlQueue 0; CloneUsingQueue orders 0 1; TopicsAdd 1;
     MaybeStart orders;
     Assignment tps; PausePartitions tps;
     NewRecovery 2; RecoveryOnRebalance 2 tps ∅ tps;
     LogInfo "Restore complete!";
     CallbackStart orders; CallbackDone orders;
     LogInfo "Perform seek"; PerformSeek; SetRecoveryCompleted;
     Assignment tps; ResumePartitions ∅;
     FetcherMaybeStart; SetRebalancing false; LogInfo "Worker ready"] ∧
  _recovery_started (self run.2) = true ∧
  recovery_completed (self run.2) = true.
Proof. vm_compute. repeat split. Qed.

(** * Further properties of the manager *)

(** ** The registry *)

(** X1: in every state a manager can reach, no two registered tables
    share a name, every table is stored under its own name, no table is
    registered twice, and a name is a key exactly when it is the name of a
    registered table. *)
Theorem registry_sound E ops :
  let m := self (run_ops E ops new_world).2 in
  NoDup (data m).*1 ∧
  NoDup (values m) ∧
  (∀ k t, (k, t) ∈ data m → name t = Some k) ∧
  (∀ n, dict_contains n (data m) = true ↔ ∃ t, t ∈ values m ∧ name t = Some n).
Proof.
  intros m. pose proof (reachable_registry E ops) as Hreg. fold m in Hreg.
  split_and!.
  - by destruct Hreg as (? & _).
  - by apply registry_inv_NoDup_values.
  - intros k t Hin. destruct Hreg as (_ & Hnames & _).
    rewrite Forall_forall in Hnames. by apply (Hnames (k, t)).
  - intros n. rewrite dict_contains_spec. by apply registry_inv_key.
Qed.

(** X2: once [on_rebalance] has been called, whether it returned or
    raised, and whatever is done afterwards, the tables and the topic index
    are those the rebalance found, and every [add] raises the
    late-registration error and changes nothing. *)
Theorem registration_closed_by_rebalance E1 a r n w E ops table :
  let w1 := (on_rebalance E1 a r n w).2 in
  let w2 := (run_ops E ops w1).2 in
  data (self w2) = data (self w) ∧
  _changelogs (self w2) = _changelogs (self w) ∧
  add table w2 = (Raise TooLateToAddTables, w2).
Proof.
  intros w1 w2.
  assert (data (self w1) = data (self w) ∧
          _changelogs (self w1) = _changelogs (self w)) as [Hd Hc].
  { split.
    - change (on_self (same data) w (on_rebalance E1 a r n w).2).
      apply on_self_on_rebalance; first [apply _ | writes].
    - change (on_self (same _changelogs) w (on_rebalance E1 a r n w).2).
      apply on_self_on_rebalance; first [apply _ | writes]. }
  pose proof (on_rebalance_started E1 a r n w) as Hs. fold w1 in Hs.
  assert (frozen (self w1) (self w2)) as Hfr.
  { apply (respects_run_ops (on_self frozen)). intros op.
    apply on_self_run_op; first [apply _ | unfold frozen; writes]. }
  destruct (Hfr Hs) as (Hs2 & Hd2 & Hc2).
  split_and!; [congruence | congruence |].
  by rewrite add_cases, Hs2.
Qed.

(** X3: [on_start], [_update_channels], [on_stop], [on_recovery_completed]
    and the accessors neither register a table nor close registration:
    whatever their outcome, [add] does after them what it would have done
    before. *)
Theorem registration_left_open E op w table :
  leaves_registration op →
  let w' := (run_op E op w).2 in
  data (self w') = data (self w) ∧
  _recovery_started (self w') = _recovery_started (self w) ∧
  (add table w').1 = (add table w).1.
Proof.
  intros Hop w'.
  assert (on_self (same (λ m, (data m, _recovery_started m))) w w') as Hsame.
  { subst w'. destruct op; try done;
      apply on_self_then; try apply _;
      first [ apply on_self_on_start | apply on_self_update_channels
            | apply on_self_on_stop | apply on_self_on_recovery_completed
            | apply on_self_changelog_queue | apply on_self_recovery
            | apply respects_gets ];
      first [apply _ | writes]. }
  injection Hsame as Hd Hs. split_and!; [done | done |].
  rewrite !add_cases, Hs, Hd.
  destruct (_recovery_started (self w)); [done|].
  destruct (name table); [|done].
  by destruct (dict_contains _ _).
Qed.

(** A run of [registration_left_open]: [orders] is registered after the
    manager has started, as it would have been before. *)
Lemma registration_left_open_witness :
  (add orders (run_op quiet OnStart new_world).2).1 = Ok orders.
Proof.
  destruct (registration_left_open quiet OnStart new_world orders I)
    as (_ & _ & H).
  rewrite H. reflexivity.
Defined.

(** ** Changelog topics *)

(** X4: once [add] has returned for a table, every partition of its
    changelog topic is a changelog partition for [_is_changelog_tp], its
    topic is among [changelog_topics], and both stay so whatever is done
    afterwards. *)
Theorem added_topic_stays table w w' E ops p :
  add table w = (Ok table, w') →
  let m := self (run_ops E ops w').2 in
  topic_name table ∈ changelog_topics m ∧
  _is_changelog_tp m (topic_name table, p) = true.
Proof.
  intros Hadd m.
  assert (topic_name table ∈ changelog_topics (self w')) as Hin.
  { rewrite add_cases in Hadd.
    destruct (_recovery_started (self w)); [done|].
    destruct (name table) as [n|]; [|done].
    destruct (dict_contains n (data (self w))); [done|].
    injection Hadd as <-. unfold changelog_topics, topic_name. simpl.
    rewrite dom_insert_L. apply elem_of_union_l, elem_of_singleton. done. }
  assert (topic_name table ∈ changelog_topics m) as Hm.
  { revert Hin.
    apply (respects_run_ops
             (on_self (stays (λ m, topic_name table ∈ changelog_topics m)))).
    intros op. apply on_self_run_op; first [apply _ | writes | idtac].
    unfold writes_registry, stays, changelog_topics. intros; simpl.
    rewrite dom_insert_L. by apply elem_of_union_r. }
  split; [done|]. unfold _is_changelog_tp. by apply bool_decide_eq_true.
Qed.

(** A run of [added_topic_stays]: [orders], after a start and a
    rebalance. *)
Lemma added_topic_stays_witness :
  _is_changelog_tp
    (self (run_ops quiet [OnStart; OnRebalance ∅ ∅ ∅] (add orders new_world).2).2)
    ("orders-changelog", 7%Z) = true.
Proof.
  by destruct (added_topic_stays orders new_world (add orders new_world).2
                 quiet [OnStart; OnRebalance ∅ ∅ ∅] 7%Z eq_refl) as [_ H].
Defined.

(** ** The lazy properties, when construction fails *)

(** X5: an access to [changelog_queue] or to [recovery] can only raise
    what the constructor raised, and only when nothing was cached; it then
    caches nothing, so that the next access constructs again. *)
Theorem failed_construction_not_cached E w :
  (∀ x w', changelog_queue E w = (Raise x, w') →
     _changelog_queue (self w) = None ∧
     x = CollaboratorError (FlowControlQueue (next_ref w)) ∧
     self w' = self w ∧
     trace w' = trace w ++ [Raised (FlowControlQueue (next_ref w))]) ∧
  (∀ x w', recovery E w = (Raise x, w') →
     _recovery (self w) = None ∧
     x = CollaboratorError (NewRecovery (next_ref w)) ∧
     self w' = self w ∧
     trace w' = trace w ++ [Raised (NewRecovery (next_ref w))]).
Proof.
  split; intros x w'.
  - unfold changelog_queue. run_unfold.
    destruct (_changelog_queue (self w)); [done|].
    destruct (raises E (trace w) _); [|done]. by intros [= <- <-].
  - unfold recovery. run_unfold.
    destruct (_recovery (self w)); [done|].
    destruct (raises E (trace w) _); [|done]. by intros [= <- <-].
Qed.

(** ** Channel wiring, table by table *)

Lemma update_channels_parts E :
  _update_channels E
  = (tables ← gets values;
     for_each tables (wire_table E);;
     pause_changelogs E).
Proof. reflexivity. Qed.

Lemma wire_table_cases E t w :
  wire_table E t w =
  match _channels (self w) !! t with
  | Some _ => call E (MaybeStart t) w
  | None =>
      match changelog_queue E w with
      | (Raise x, w1) => (Raise x, w1)
      | (Ok q, w1) =>
          let chan := next_ref w1 in
          match call E (CloneUsingQueue t q chan)
                  {| self := self w1; trace := trace w1; next_ref := S chan |} with
          | (Raise x, w3) => (Raise x, w3)
          | (Ok _, w3) =>
              match call E (TopicsAdd chan) w3 with
              | (Raise x, w4) => (Raise x, w4)
              | (Ok _, w4) =>
                  call E (MaybeStart t)
                    {| self := set_channels (<[t:=chan]> (_channels (self w4)))
                                 (self w4);
                       trace := trace w4; next_ref := next_ref w4 |}
              end
          end
      end
  end.
Proof.
  unfold wire_table. repeat (rewrite bind_unfold; cbn [gets]).
  destruct (_channels (self w) !! t); [reflexivity|].
  repeat (rewrite bind_unfold; cbn [gets fresh]).
  destruct (changelog_queue E w) as [[q|x] w1]; [|reflexivity].
  repeat (rewrite bind_unfold; cbn [gets fresh]).
  destruct (call E (CloneUsingQueue t q (next_ref w1)) _) as [[[]|x] w3];
    [|reflexivity].
  repeat (rewrite bind_unfold; cbn [gets fresh]).
  destruct (call E (TopicsAdd (next_ref w1)) w3) as [[[]|x] w4]; reflexivity.
Qed.

(** Wiring one table, when it returns: the table has a channel, no other
    channel has changed, and [maybe_start] was the one call of its kind. *)
Lemma wire_table_Ok E t w w1 :
  wire_table E t w = (Ok tt, w1) →
  ∃ W, trace w1 = trace w ++ W ∧ Forall wiring W ∧
    filter (λ e, is_maybe_start e) W = [MaybeStart t] ∧
    is_Some (_channels (self w1) !! t) ∧
    (∀ t' c, _channels (self w) !! t' = Some c →
             _channels (self w1) !! t' = Some c) ∧
    data (self w1) = data (self w) ∧
    _changelogs (self w1) = _changelogs (self w).
Proof.
  unfold wire_table, changelog_queue. run_unfold.
  destruct (_channels (self w) !! t) as [c0|] eqn:Hc; simpl.
  - destruct (raises E (trace w) (MaybeStart t)); [done|]. intros [= <-].
    exists [MaybeStart t]. simpl. rewrite Hc.
    split_and!;
      [done | by repeat constructor | done | by eexists | done | done | done].
  - repeat case_match; intros; simplify_eq; simpl;
      (eexists; split; [by rewrite <- ?(assoc_L (++)) |]);
      (split_and!;
       [ by repeat constructor | done | rewrite lookup_insert_eq; by eexists
       | | done | done ]);
      intros t' c Ht'; (rewrite lookup_insert_ne; [done|]); intros ->; congruence.
Qed.

Lemma wire_loop_Ok E tables w w' :
  for_each tables (wire_table E) w = (Ok tt, w') →
  ∃ W, trace w' = trace w ++ W ∧ Forall wiring W ∧
    filter (λ e, is_maybe_start e) W = MaybeStart <$> tables ∧
    (∀ t, t ∈ tables → is_Some (_channels (self w') !! t)) ∧
    (∀ t c, _channels (self w) !! t = Some c →
            _channels (self w') !! t = Some c) ∧
    data (self w') = data (self w) ∧
    _changelogs (self w') = _changelogs (self w).
Proof.
  revert w. induction tables as [|t tables IH]; intros w H; simpl in H.
  - apply ret_Ok in H as [_ ->]. exists []. rewrite app_nil_r.
    split_and!; [done | constructor | done | | done | done | done].
    by intros t ?%elem_of_nil.
  - apply bind_Ok_inv in H as ([] & w1 & H1 & H2).
    apply wire_table_Ok in H1
      as (W1 & Htr1 & HF1 & Hms1 & Ht & Hkeep1 & Hd1 & Hc1).
    apply IH in H2 as (W2 & Htr2 & HF2 & Hms2 & Hall & Hkeep2 & Hd2 & Hc2).
    exists (W1 ++ W2). split_and!.
    + by rewrite Htr2, Htr1, (assoc_L (++)).
    + by apply Forall_app.
    + by rewrite filter_app, Hms1, Hms2.
    + intros t' [-> | Hin]%elem_of_cons; [|by apply Hall].
      destruct Ht as [c Hc]. exists c. by apply Hkeep2.
    + intros t' c Hc. by apply Hkeep2, Hkeep1.
    + congruence.
    + congruence.
Qed.

Lemma pause_changelogs_Ok E w w' :
  pause_changelogs E w = (Ok tt, w') →
  let tps := consumer_assignment E (trace w) in
  w' = extend
         [Assignment tps;
          PausePartitions (filter (λ tp, topic tp ∈ changelog_topics (self w)) tps)]
         w.
Proof.
  unfold pause_changelogs. intros H.
  apply bind_Ok_inv in H as (tps & w1 & H1 & H).
  apply assignment_Ok in H1 as [-> ->].
  apply bind_Ok_inv in H as (m & w1 & H1 & H). apply gets_Ok in H1 as [-> ->].
  apply call_Ok in H as [_ ->]. cbn zeta. rewrite extend_app. simpl.
  by rewrite (filter_changelog_tp (self w)).
Qed.

(** ** Startup *)

(** A wiring that returns: every table has a channel, and [maybe_start]
    has been called on each, in the order of registration. *)
Lemma update_channels_Ok_starts E w w' :
  _update_channels E w = (Ok tt, w') →
  wired (self w') ∧
  ∃ W, Forall wiring W ∧
    filter (λ e, is_maybe_start e) W = MaybeStart <$> values (self w) ∧
    let tps := consumer_assignment E (trace w ++ W) in
    trace w' = trace w ++ W ++
      [Assignment tps;
       PausePartitions (filter (λ tp, topic tp ∈ changelog_topics (self w)) tps)].
Proof.
  rewrite update_channels_parts. intros H.
  apply bind_Ok_inv in H as (ts & w1 & H1 & H). apply gets_Ok in H1 as [-> ->].
  apply bind_Ok_inv in H as ([] & w1 & H1 & H).
  apply wire_loop_Ok in H1 as (W & Htr & HF & Hms & Hall & Hstay & Hd & Hcl).
  apply pause_changelogs_Ok in H. cbn zeta in H. subst w'. simpl.
  split.
  - intros t Ht. apply Hall. unfold values in *. by rewrite <- Hd.
  - exists W. cbn zeta. rewrite Htr. unfold changelog_topics. rewrite Hcl.
    split_and!; [done | done | by rewrite <- (assoc_L (++))].
Qed.

Lemma on_start_Ok E w w' :
  on_start E w = (Ok tt, w') →
  ∃ W rec, Forall wiring W ∧
    filter (λ e, is_maybe_start e) W = MaybeStart <$> values (self w) ∧
    let tps := consumer_assignment E (trace w ++ [Sleep] ++ W) in
    trace w' = trace w ++ on_start_events (self w) W tps rec ∧
    _recovery (self w') = Some rec ∧
    wired (self w').
Proof.
  unfold on_start. intros H.
  apply bind_Ok_inv in H as ([] & w1 & H1 & H). apply call_Ok in H1 as [_ ->].
  apply bind_Ok_inv in H as ([] & w2 & H2 & H).
  match type of H2 with _update_channels E ?w0 = _ =>
    pose proof (update_channels_only_wired E w0) as Hkeep end.
  rewrite H2 in Hkeep. destruct Hkeep as (_ & _ & Hrec & _).
  apply update_channels_Ok_starts in H2 as (Hwired & W & HW & Hms & Htr2).
  apply bind_Ok_inv in H as (rec & w3 & H3 & H).
  assert (on_self (same (λ m, (data m, _channels m))) w2 (recovery E w2).2)
    as Hsame by (apply on_self_recovery; first [apply _ | writes]).
  rewrite H3 in Hsame. injection Hsame as Hd3 Hc3.
  apply recovery_Ok in H3 as (Hcached & Htr3 & _).
  apply call_Ok in H as [_ ->].
  exists W, rec. split; [done|]. split; [done|]. simpl in *.
  split_and!; [| done |].
  - rewrite Htr3, Htr2, Hrec. unfold on_start_events.
    rewrite <- !(assoc_L (++)). simpl. rewrite <- ?(assoc_L (++)). done.
  - intros t Ht. unfold values in Ht. rewrite Hd3 in Ht. rewrite Hc3.
    by apply Hwired.
Qed.


(** X6: every run of [on_start] sleeps, then wires the channels and
    pauses the assigned changelog partitions, and only then starts the
    recovery coordinator, which it constructs at that point if there was
    none.  The wiring calls [maybe_start] on every registered table, in
    the order of registration.  The collaborators decide how far the run
    gets: it makes these calls one after the other, returns after the
    start of the coordinator when none of them raises, and stops at the
    first that raises otherwise.  A run that returns leaves the coordinator
    cached and every registered table with a channel. *)
Theorem start_order E w :
  let run := on_start E w in
  ∃ W rec tps evs,
    let paused := filter (λ tp, topic tp ∈ changelog_topics (self w)) tps in
    Forall wiring W ∧
    trace run.2 = trace w ++ evs ∧
    run_of (on_start_events (self w) W tps rec) tt run.1 evs ∧
    (run.1 = Ok tt → _recovery (self run.2) = Some rec) ∧
    (∀ e, wiring e → before Sleep e evs) ∧
    (∀ r, before (PausePartitions paused) (NewRecovery r) evs) ∧
    before (PausePartitions paused) (RecoveryStart rec) evs ∧
    run_under E (trace w) (on_start_events (self w) W tps rec) tt run.1 evs ∧
    filter (λ e, is_maybe_start e) W = MaybeStart <$> values (self w) ∧
    tps = consumer_assignment E (trace w ++ [Sleep] ++ W) ∧
    (run.1 = Ok tt → wired (self run.2)).
Proof.
  intros run.
  destruct (lawful_played _ E w lawful_on_start)
    as ([] & w0 & evs & Hcalm & Hevs & Hshape & Hret).
  apply on_start_Ok in Hcalm as (W & rec & HW & Hms & Htr & Hrec & Hwired).
  cbn zeta in Htr. cbn [calm consumer_assignment] in Htr.
  set (tps := consumer_assignment E (trace w ++ [Sleep] ++ W)) in *.
  apply Hshape in Htr as [Hrun Hunder]. fold run in Hevs, Hrun, Hunder, Hret.
  exists W, rec, tps, evs. cbn zeta.
  split_and!; [done | done | done | | | | | done | done | done |].
  - intros Hok. by rewrite (Hret _ Hok).
  - intros e He. apply (before_run_of _ _ _ _ _ _ Hrun); [by destruct e|].
    eapply (before_prefix _ _ [Sleep]); [reflexivity | by left |].
    apply Forall_cons. split; [|constructor].
    split; [intros <-; done | discriminate].
  - intros r. apply (before_run_of _ _ _ _ _ _ Hrun); [done|].
    eapply (before_prefix _ _
              ([Sleep] ++ W ++
               [Assignment tps;
                PausePartitions
                  (filter (λ tp, topic tp ∈ changelog_topics (self w)) tps)])).
    + unfold on_start_events. rewrite <- !(assoc_L (++)). reflexivity.
    + rewrite !elem_of_app. right. right. right. by left.
    + no_call_of.
  - apply (before_run_of _ _ _ _ _ _ Hrun); [done|].
    eapply (before_prefix _ _
              ([Sleep] ++ W ++
               [Assignment tps;
                PausePartitions
                  (filter (λ tp, topic tp ∈ changelog_topics (self w)) tps)])).
    + unfold on_start_events. rewrite <- !(assoc_L (++)). reflexivity.
    + rewrite !elem_of_app. right. right. right. by left.
    + no_call_of.
  - intros Hok. by rewrite (Hret _ Hok).
Qed.

(** A run of [start_order]: two tables, the changelog partition of one and
    a partition of a live topic assigned, collaborators that do not
    raise. *)
Lemma start_order_witness :
  let w := (run_ops quiet [Add orders; Add users] new_world).2 in
  let run := on_start two_assigned w in
  run.1 = Ok tt ∧
  ∃ W rec, Forall wiring W ∧
    filter (λ e, is_maybe_start e) W = [MaybeStart orders; MaybeStart users] ∧
    trace run.2 = trace w ++ [Sleep] ++ W ++
      [Assignment {[ ("orders-changelog", 0%Z); ("live", 0%Z) ]};
       PausePartitions {[ ("orders-changelog", 0%Z) ]};
       NewRecovery rec; RecoveryStart rec] ∧
    _recovery (self run.2) = Some rec ∧
    wired (self run.2).
Proof.
  intros w run.
  destruct (start_order two_assigned w)
    as (W & rec & tps & evs & HW & Htr & _ & Hrec & _ & _ & _ & Hunder &
        Hms & Htps & Hwired).
  fold run in Htr, Hunder, Hrec, Hwired.
  apply run_under_calm in Hunder as [Ho Hevs]; [|done].
  cbn [consumer_assignment two_assigned] in Htps. subst tps.
  unfold on_start_events in Hevs.
  assert (values (self w) = [orders; users]) as Hv by (vm_compute; reflexivity).
  assert (_recovery (self w) = None) as Hr by (vm_compute; reflexivity).
  assert (filter (λ tp : TP, topic tp ∈ changelog_topics (self w))
            ({[ ("orders-changelog", 0%Z); ("live", 0%Z) ]} : gset TP)
          = {[ ("orders-changelog", 0%Z) ]}) as Hp
    by (vm_compute; reflexivity).
  rewrite Hr, Hp in Hevs. rewrite Hv in Hms.
  split; [exact Ho|]. exists W, rec.
  split_and!; [exact HW | exact Hms | by rewrite Htr, Hevs | by apply Hrec
              | by apply Hwired].
Defined.

(** A start of a manager with one table and nothing assigned. *)
Example start_order_example :
  trace (on_start quiet (run_ops quiet [Add orders] new_world).2).2
  = [Sleep; FlowControlQueue 0; CloneUsingQueue orders 0 1; TopicsAdd 1;
     MaybeStart orders; Assignment ∅; PausePartitions ∅;
     NewRecovery 2; RecoveryStart 2].
Proof. vm_compute. reflexivity. Qed.

(** X7: when [_update_channels] returns, every registered table has a
    channel, no channel that was there has been replaced, and [maybe_start]
    has been called once on every registered table, in the order of
    registration, whether the table had a channel or not; all of this
    before the assignment is read and the changelog partitions paused. *)
Theorem wiring_completes E w w' :
  _update_channels E w = (Ok tt, w') →
  wired (self w') ∧
  (∀ t c, _channels (self w) !! t = Some c → _channels (self w') !! t = Some c) ∧
  ∃ W,
    let tps := consumer_assignment E (trace w ++ W) in
    trace w' = trace w ++ W ++
      [Assignment tps;
       PausePartitions (filter (λ tp, topic tp ∈ changelog_topics (self w)) tps)] ∧
    Forall wiring W ∧
    filter (λ e, is_maybe_start e) W = MaybeStart <$> values (self w).
Proof.
  rewrite update_channels_parts. intros H.
  apply bind_Ok_inv in H as (ts & w1 & H1 & H). apply gets_Ok in H1 as [-> ->].
  apply bind_Ok_inv in H as ([] & w1 & H1 & H).
  apply wire_loop_Ok in H1 as (W & Htr & HF & Hms & Hall & Hstay & Hd & Hcl).
  apply pause_changelogs_Ok in H. cbn zeta in H. subst w'. simpl.
  split_and!.
  - intros t Ht. apply Hall. unfold values in *. by rewrite <- Hd.
  - done.
  - exists W. cbn zeta. rewrite Htr. unfold changelog_topics. rewrite Hcl.
    split_and!; [by rewrite <- (assoc_L (++)) | done | done].
Qed.

(** A run of [wiring_completes]: the first wiring of a manager with two
    tables. *)
Lemma wiring_completes_witness :
  let w := (run_ops quiet [Add orders; Add users] new_world).2 in
  let w' := (_update_channels quiet w).2 in
  _update_channels quiet w = (Ok tt, w') ∧
  wired (self w') ∧
  (∀ t c, _channels (self w) !! t = Some c → _channels (self w') !! t = Some c) ∧
  ∃ W,
    let tps := consumer_assignment quiet (trace w ++ W) in
    trace w' = trace w ++ W ++
      [Assignment tps;
       PausePartitions (filter (λ tp, topic tp ∈ changelog_topics (self w)) tps)] ∧
    Forall wiring W ∧
    filter (λ e, is_maybe_start e) W = MaybeStart <$> values (self w).
Proof.
  intros w w'.
  assert (_update_channels quiet w = (Ok tt, w')) as Hrun
    by (vm_compute; reflexivity).
  split; [exact Hrun|].
  exact (wiring_completes quiet w w' Hrun).
Defined.









(** ** What the operations keep, block by block *)

Section Blocks.
Context (R : relation World) `{!PreOrder R}.
Hypothesis R_routine : ∀ e w, routine e → R w (record e w).

Lemma blocks_call E e : routine e → respects R (call E e).
Proof.
  intros He w. unfold call.
  destruct (raises E (trace w) e); by apply R_routine.
Qed.

Lemma blocks_emit e : routine e → respects R (emit e).
Proof. intros He w. by apply R_routine. Qed.

Lemma blocks_on_stop E : respects R (on_stop E).
Proof.
  unfold on_stop.
  apply respects_bind; [apply _ | by apply blocks_call | intros _].
  apply respects_bind; [apply _ | apply respects_gets; apply _ | intros r].
  apply respects_bind; [apply _ | | intros _].
  { destruct r; [by apply blocks_call | apply respects_ret; apply _]. }
  apply respects_bind; [apply _ | apply respects_gets; apply _ | intros ts].
  apply respects_for_each; [apply _ | intros t]. by apply blocks_call.
Qed.

Hypothesis R_wire : ∀ E t, respects R (wire_table E t).
Hypothesis R_pause : ∀ E, respects R (pause_changelogs E).

Lemma blocks_update_channels E : respects R (_update_channels E).
Proof.
  rewrite update_channels_parts.
  apply respects_bind; [apply _ | apply respects_gets; apply _ | intros ts].
  apply respects_bind; [apply _ | | intros _; apply R_pause].
  apply respects_for_each; [apply _ | intros t]. apply R_wire.
Qed.

Hypothesis R_recovery : ∀ E, respects R (recovery E).

Lemma blocks_on_start E : respects R (on_start E).
Proof.
  unfold on_start.
  apply respects_bind; [apply _ | by apply blocks_call | intros _].
  apply respects_bind; [apply _ | apply blocks_update_channels | intros _].
  apply respects_bind; [apply _ | apply R_recovery | intros r].
  by apply blocks_call.
Qed.

Hypothesis R_started : respects R (modify (set_recovery_started true)).

Lemma blocks_on_rebalance E a r n : respects R (on_rebalance E a r n).
Proof.
  unfold on_rebalance.
  apply respects_bind; [apply _ | apply R_started | intros _].
  apply respects_bind; [apply _ | by apply blocks_emit | intros _].
  apply respects_bind; [apply _ | apply respects_gets; apply _ | intros ts].
  apply respects_bind; [apply _ | | intros _].
  { apply respects_for_each; [apply _ | intros t].
    apply respects_bind; [apply _ | by apply blocks_call | intros _].
    by apply blocks_call. }
  apply respects_bind; [apply _ | apply blocks_update_channels | intros _].
  apply respects_bind; [apply _ | apply R_recovery | intros rec].
  by apply blocks_call.
Qed.

Lemma blocks_run_tasks E fuel tasks : respects R (run_tasks E fuel tasks).
Proof.
  revert tasks. induction fuel as [|fuel IH]; intros tasks.
  { destruct tasks; apply respects_ret; apply _. }
  destruct tasks as [|t tasks]; [apply respects_ret; apply _|].
  intros w. cbn [run_tasks].
  set (k := schedule E (trace w) `mod` length (t :: tasks)).
  destruct ((t :: tasks) !! k) as [[c []]|]; [| |reflexivity].
  - apply (respects_bind R (emit _) (λ _, run_tasks E fuel _));
      [by apply blocks_emit | intros _; apply IH].
  - apply (respects_bind R (emit _) (λ _, run_tasks E fuel _));
      [by apply blocks_emit | intros _; apply IH].
Qed.

Hypothesis R_completed : respects R (modify (set_recovery_completed true)).

Lemma blocks_on_recovery_completed E : respects R (on_recovery_completed E).
Proof.
  unfold on_recovery_completed.
  apply respects_bind; [apply _ | by apply blocks_emit | intros _].
  apply respects_bind; [apply _ | apply respects_gets; apply _ | intros ts].
  apply respects_bind; [apply _ | | intros _].
  { destruct (call_recover_callbacks <$> ts); [apply respects_ret; apply _|].
    apply blocks_run_tasks. }
  apply respects_bind; [apply _ | by apply blocks_emit | intros _].
  apply respects_bind; [apply _ | by apply blocks_call | intros _].
  apply respects_bind; [apply _ | apply R_completed | intros _].
  apply respects_bind; [apply _ | by apply blocks_emit | intros _].
  apply respects_bind; [apply _ | | intros tps].
  { unfold assignment. intros w. simpl.
    apply (respects_bind R (call E _) (λ _, mret _));
      [by apply blocks_call | intros _; apply respects_ret; apply _]. }
  apply respects_bind; [apply _ | apply respects_gets; apply _ | intros m].
  apply respects_bind; [apply _ | by apply blocks_call | intros _].
  apply respects_bind; [apply _ | by apply blocks_call | intros _].
  apply respects_bind; [apply _ | by apply blocks_emit | intros _].
  by apply blocks_emit.
Qed.

Hypothesis R_add : ∀ t, respects R (add t).
Hypothesis R_queue : ∀ E, respects R (changelog_queue E).

Lemma blocks_run_op E op : respects R (run_op E op).
Proof.
  destruct op;
    (apply respects_bind; [apply _ | | intros ?; apply respects_ret; apply _]);
    auto using blocks_on_start, blocks_update_channels, blocks_on_stop,
      blocks_on_rebalance, blocks_on_recovery_completed.
  apply respects_gets. apply _.
Qed.

Lemma blocks_run_ops E ops w : R w (run_ops E ops w).2.
Proof. apply (respects_run_ops R). apply blocks_run_op. Qed.

End Blocks.

(** The blocks that only record events, for a relation that any event
    keeps. *)
Lemma pause_block (R : relation World) `{!PreOrder R} :
  (∀ e w, R w (record e w)) → ∀ E, respects R (pause_changelogs E).
Proof.
  intros Hrec E. unfold pause_changelogs.
  apply respects_bind; [apply _ | | intros tps].
  { apply respects_assignment; [apply _ | auto]. }
  apply respects_bind; [apply _ | apply respects_gets; apply _ | intros m].
  apply respects_call; [auto | done].
Qed.

Lemma call_self E e w : self (call E e w).2 = self w.
Proof. unfold call. by destruct (raises E (trace w) e). Qed.

(** Wiring one table, for a relation on the manager alone. *)
Lemma on_self_wire_table Rm `{!PreOrder Rm} E t :
  writes_queue Rm → writes_new_channel Rm →
  respects (on_self Rm) (wire_table E t).
Proof.
  intros Hq Hc w. unfold on_self. rewrite wire_table_cases.
  destruct (_channels (self w) !! t) as [c|] eqn:Hch.
  { rewrite call_self. reflexivity. }
  pose proof (on_self_changelog_queue Rm E Hq w) as H1.
  assert (_channels (self (changelog_queue E w).2) = _channels (self w)) as Hsame.
  { apply (on_self_changelog_queue (same _channels) E); writes. }
  unfold on_self in H1.
  destruct (changelog_queue E w) as [[q|x] w1]; simpl in *; [|done].
  pose proof (call_self E (CloneUsingQueue t q (next_ref w1))
                {| self := self w1; trace := trace w1;
                   next_ref := S (next_ref w1) |}) as H3.
  destruct (call E (CloneUsingQueue t q (next_ref w1)) _) as [[[]|x] w3];
    simpl in *; [|by rewrite H3].
  pose proof (call_self E (TopicsAdd (next_ref w1)) w3) as H4.
  destruct (call E (TopicsAdd (next_ref w1)) w3) as [[[]|x] w4];
    simpl in *; [|by rewrite H4, H3].
  rewrite call_self. simpl. rewrite H4, H3.
  etrans; [exact H1|]. apply Hc. by rewrite Hsame.
Qed.

(** Every operation, from the writes; a channel is only written for a
    table that has none. *)
Lemma on_self_run_op_wiring Rm `{!PreOrder Rm} E op :
  writes_queue Rm → writes_recovery Rm → writes_new_channel Rm →
  writes_started Rm → writes_completed Rm → writes_registry Rm →
  respects (on_self Rm) (run_op E op).
Proof.
  intros Hq Hr Hc Hs Hd Ha.
  apply blocks_run_op; [apply _ | | | | | | | | ].
  - intros e w _. unfold on_self. reflexivity.
  - intros E' t. by apply on_self_wire_table.
  - apply pause_block; [apply _|]. intros e w. unfold on_self. reflexivity.
  - intros E'. by apply on_self_recovery.
  - by apply on_self_modify.
  - by apply on_self_modify.
  - intros t. by apply on_self_add.
  - intros E'. by apply on_self_changelog_queue.
Qed.

(** X9: a channel, once stored for a table, is the channel of that table
    for good: no operation, whatever its outcome, replaces or removes it. *)
Theorem channel_stays E ops w t c :
  _channels (self w) !! t = Some c →
  _channels (self (run_ops E ops w).2) !! t = Some c.
Proof.
  apply (respects_run_ops (on_self (stays (λ m, _channels m !! t = Some c)))).
  intros op. apply on_self_run_op_wiring; first [apply _ | writes | idtac].
  unfold writes_new_channel, stays. intros m t' c' Hnone Hsome. simpl.
  rewrite lookup_insert_ne; [done|]. intros ->. congruence.
Qed.

(** A run of [channel_stays]: the channel of [orders], through a rebalance,
    the completion of recovery and a stop. *)
Lemma channel_stays_witness :
  let w := (run_ops quiet [Add orders; OnStart] new_world).2 in
  let ops := [OnRebalance ∅ ∅ ∅; OnRecoveryCompleted; OnStop] in
  _channels (self w) !! orders = Some 1 ∧
  _channels (self (run_ops two_assigned ops w).2) !! orders = Some 1.
Proof.
  intros w ops.
  assert (_channels (self w) !! orders = Some 1) as Hc
    by (vm_compute; reflexivity).
  split; [exact Hc|].
  exact (channel_stays two_assigned ops w orders 1 Hc).
Defined.

(** ** The invariant of the wiring *)

Lemma elem_of_snoc {A} (l : list A) (x y : A) :
  x ∈ l ++ [y] ↔ x ∈ l ∨ x = y.
Proof. by rewrite elem_of_app, list_elem_of_singleton. Qed.

(** The invariant only reads the cached queue, the channels, the topic
    index and the trace. *)
Lemma wiring_inv_ext w w' :
  _changelog_queue (self w') = _changelog_queue (self w) →
  _channels (self w') = _channels (self w) →
  changelog_topics (self w) ⊆ changelog_topics (self w') →
  trace w' = trace w →
  wiring_inv w → wiring_inv w'.
Proof.
  intros Hq Hc Ht Htr (H1 & H2 & H3). split_and!.
  - intros t q c. rewrite Htr, Hq. apply H1.
  - intros t c. rewrite Htr, Hc. apply H2.
  - intros X tp. rewrite Htr. intros HX Htp. apply Ht. by eapply H3.
Qed.

Lemma wiring_inv_record e w :
  routine e → wiring_inv w → wiring_inv (record e w).
Proof.
  intros He (H1 & H2 & H3). split_and!.
  - intros t q c [Hin | <-]%elem_of_snoc; [by eapply H1 | done].
  - intros t c Hc. destruct (H2 t c Hc) as (Ha & q & Hcl). simpl.
    split; [rewrite elem_of_snoc; by left|].
    exists q. rewrite elem_of_snoc. by left.
  - intros X tp [Hin | <-]%elem_of_snoc; [by eapply H3 | done].
Qed.

Lemma wiring_inv_new_world : wiring_inv new_world.
Proof.
  split_and!.
  - by intros t q c ?%elem_of_nil.
  - intros t c Hc. simpl in Hc. by rewrite lookup_empty in Hc.
  - by intros X tp ?%elem_of_nil.
Qed.

Lemma wiring_inv_add table : respects (latch wiring_inv) (add table).
Proof.
  intros w Hinv. rewrite add_cases.
  destruct (_recovery_started (self w)); [done|].
  destruct (name table) as [n|]; [|done].
  destruct (dict_contains n (data (self w))); [done|].
  apply (wiring_inv_ext w); [done | done | | done | done].
  unfold changelog_topics. simpl. rewrite dom_insert_L. apply union_subseteq_r.
Qed.

Lemma wiring_inv_changelog_queue E :
  respects (latch wiring_inv) (changelog_queue E).
Proof.
  intros w Hinv. unfold changelog_queue. run_unfold.
  destruct (_changelog_queue (self w)) as [q|] eqn:Hq; simpl; [done|].
  assert (∀ e, match e with CloneUsingQueue _ _ _ | PausePartitions _ => False
               | _ => True end →
               wiring_inv {| self := self w; trace := trace w ++ [e];
                             next_ref := S (next_ref w) |}) as Hrec.
  { intros e He. destruct Hinv as (H1 & H2 & H3). split_and!.
    - intros t q c [Hin | <-]%elem_of_snoc; [|done].
      specialize (H1 t q c Hin). congruence.
    - intros t c Hc. destruct (H2 t c Hc) as (Ha & q & Hcl). simpl.
      split; [rewrite elem_of_snoc; by left|].
      exists q. rewrite elem_of_snoc. by left.
    - intros X tp [Hin | <-]%elem_of_snoc; [by eapply H3 | done]. }
  destruct (raises E (trace w) _); simpl; [by apply Hrec|].
  destruct (Hrec (FlowControlQueue (next_ref w)) I) as (H1 & H2 & H3).
  split_and!; [|done|done].
  intros t q c Hin. destruct Hinv as (H1' & _).
  apply elem_of_snoc in Hin as [Hin | [=]].
  specialize (H1' t q c Hin). congruence.
Qed.

Lemma wiring_inv_recovery E : respects (latch wiring_inv) (recovery E).
Proof.
  intros w Hinv. unfold recovery. run_unfold.
  destruct (_recovery (self w)) as [r|] eqn:Hr; simpl; [done|].
  assert (∀ e, match e with CloneUsingQueue _ _ _ | PausePartitions _ => False
               | _ => True end →
               wiring_inv {| self := self w; trace := trace w ++ [e];
                             next_ref := S (next_ref w) |}) as Hrec.
  { intros e He. destruct Hinv as (H1 & H2 & H3). split_and!.
    - intros t q c [Hin | <-]%elem_of_snoc; [by eapply H1 | done].
    - intros t c Hc. destruct (H2 t c Hc) as (Ha & q & Hcl). simpl.
      split; [rewrite elem_of_snoc; by left|].
      exists q. rewrite elem_of_snoc. by left.
    - intros X tp [Hin | <-]%elem_of_snoc; [by eapply H3 | done]. }
  destruct (raises E (trace w) _); simpl; [by apply Hrec|].
  by apply (wiring_inv_ext _ _ eq_refl eq_refl (reflexivity _) eq_refl
              (Hrec (NewRecovery (next_ref w)) I)).
Qed.

Lemma wiring_inv_call E e w :
  routine e → wiring_inv w → wiring_inv (call E e w).2.
Proof.
  intros He Hinv. unfold call.
  destruct (raises E (trace w) e); simpl; by apply wiring_inv_record.
Qed.

Lemma wiring_inv_pause E : respects (latch wiring_inv) (pause_changelogs E).
Proof.
  intros w Hinv. unfold pause_changelogs, assignment. run_unfold.
  set (tps := consumer_assignment E (trace w)).
  destruct (raises E (trace w) (Assignment tps)); simpl.
  { by apply (wiring_inv_record (Raised (Assignment tps)) w). }
  pose proof (wiring_inv_record (Assignment tps) w I Hinv) as HA.
  destruct (raises E (trace w ++ [Assignment tps]) _); simpl.
  { by apply (wiring_inv_record (Raised (PausePartitions _)) (record _ w)). }
  destruct HA as (H1 & H2 & H3). split_and!.
  - intros t q c [Hin | [=]]%elem_of_snoc. by eapply H1.
  - intros t c Hc. destruct (H2 t c Hc) as (Ha & q & Hcl). simpl.
    split; [rewrite elem_of_snoc; by left|].
    exists q. rewrite elem_of_snoc. by left.
  - intros X tp [Hin | [= ->]]%elem_of_snoc; [by eapply H3|].
    intros [Htp _]%elem_of_filter. unfold _is_changelog_tp in Htp.
    by apply bool_decide_unpack in Htp.
Qed.

Lemma wiring_inv_clone t q c w :
  _changelog_queue (self w) = Some q →
  wiring_inv w → wiring_inv (record (CloneUsingQueue t q c) w).
Proof.
  intros Hq (H1 & H2 & H3). split_and!.
  - intros t' q' c' [Hin | [= -> -> ->]]%elem_of_snoc; [by eapply H1 | done].
  - intros t' c' Hc. destruct (H2 t' c' Hc) as (Ha & q' & Hcl). simpl.
    split; [rewrite elem_of_snoc; by left|].
    exists q'. rewrite elem_of_snoc. by left.
  - intros X tp [Hin | [=]]%elem_of_snoc. by eapply H3.
Qed.

Lemma wiring_inv_store t q c w :
  TopicsAdd c ∈ trace w → CloneUsingQueue t q c ∈ trace w →
  wiring_inv w →
  wiring_inv {| self := set_channels (<[t:=c]> (_channels (self w))) (self w);
                trace := trace w; next_ref := next_ref w |}.
Proof.
  intros Ha Hcl (H1 & H2 & H3). split_and!; [done | | done].
  intros t' c'. simpl. rewrite lookup_insert. case_decide as Ht.
  - intros [= <-]. subst t'. eauto.
  - apply H2.
Qed.

Lemma call_cases E e w :
  call E e w = (Ok tt, record e w) ∨
  call E e w = (Raise (CollaboratorError e), record (Raised e) w).
Proof. unfold call. destruct (raises E (trace w) e); auto. Qed.

Lemma wiring_inv_wire E t : respects (latch wiring_inv) (wire_table E t).
Proof.
  intros w Hinv. rewrite wire_table_cases.
  destruct (_channels (self w) !! t) as [c|] eqn:Hch.
  { by apply wiring_inv_call. }
  pose proof (wiring_inv_changelog_queue E w Hinv) as H1.
  destruct (changelog_queue E w) as [[q|x] w1] eqn:Hq; simpl in *; [|done].
  apply changelog_queue_Ok in Hq as (Hcached & _ & _).
  set (chan := next_ref w1).
  set (w2 := {| self := self w1; trace := trace w1; next_ref := S chan |}).
  assert (wiring_inv w2) as H2 by (by apply (wiring_inv_ext w1)).
  destruct (call_cases E (CloneUsingQueue t q chan) w2) as [-> | ->]; simpl.
  2:{ by apply (wiring_inv_record (Raised _) _ I H2). }
  pose proof (wiring_inv_clone t q chan w2 Hcached H2) as H3.
  destruct (call_cases E (TopicsAdd chan) (record (CloneUsingQueue t q chan) w2))
    as [-> | ->]; simpl.
  2:{ by apply (wiring_inv_record (Raised _) _ I H3). }
  pose proof (wiring_inv_record (TopicsAdd chan) _ I H3) as H4.
  apply wiring_inv_call; [done|].
  refine (wiring_inv_store t q chan
            (record (TopicsAdd chan) (record (CloneUsingQueue t q chan) w2))
            _ _ H4).
  - simpl. rewrite elem_of_snoc. by right.
  - simpl. rewrite !elem_of_snoc. left. by right.
Qed.

Lemma wiring_inv_run_ops E ops w : wiring_inv w → wiring_inv (run_ops E ops w).2.
Proof.
  apply (blocks_run_ops (latch wiring_inv)).
  - intros e w' He Hinv. by apply wiring_inv_record.
  - apply wiring_inv_wire.
  - apply wiring_inv_pause.
  - apply wiring_inv_recovery.
  - intros w' Hinv. by apply (wiring_inv_ext w').
  - intros w' Hinv. by apply (wiring_inv_ext w').
  - apply wiring_inv_add.
  - apply wiring_inv_changelog_queue.
Qed.

Lemma reachable_wiring_inv E ops : wiring_inv (run_ops E ops new_world).2.
Proof. apply wiring_inv_run_ops, wiring_inv_new_world. Qed.

(** ** One queue for all the channels *)

(** X10: at every point of a manager's life, every channel that has ever
    been cloned from a changelog topic was cloned with the queue that is
    cached now, which is the only queue ever constructed: all the channels
    share one queue. *)
Theorem channels_share_one_queue E ops :
  let w := (run_ops E ops new_world).2 in
  ∀ t q c, CloneUsingQueue t q c ∈ trace w →
    _changelog_queue (self w) = Some q ∧
    constructed_queues (trace w) = [q] ∧
    ∀ t' q' c', CloneUsingQueue t' q' c' ∈ trace w → q' = q.
Proof.
  intros w t q c Hin.
  destruct (reachable_wiring_inv E ops) as (H1 & _).
  destruct (consistent_run_ops E ops new_world consistent_new_world) as (Hq & _).
  fold w in H1, Hq. pose proof (H1 t q c Hin) as Hc.
  split_and!; [done | by rewrite Hq, Hc |].
  intros t' q' c' Hin'. specialize (H1 t' q' c' Hin'). congruence.
Qed.

(** A run of [channels_share_one_queue]: the channel of [orders] on a
    started manager with two tables. *)
Lemma channels_share_one_queue_witness :
  let w := (run_ops quiet [Add orders; Add users; OnStart] new_world).2 in
  CloneUsingQueue orders 0 1 ∈ trace w ∧
  _changelog_queue (self w) = Some 0 ∧
  constructed_queues (trace w) = [0] ∧
  ∀ t' q' c', CloneUsingQueue t' q' c' ∈ trace w → q' = 0.
Proof.
  intros w.
  assert (CloneUsingQueue orders 0 1 ∈ trace w) as Hin.
  { assert (take 3 (trace w)
            = [Sleep; FlowControlQueue 0; CloneUsingQueue orders 0 1]) as Htr
      by (vm_compute; reflexivity).
    rewrite <- (take_drop 3 (trace w)), Htr.
    apply elem_of_app. left.
    apply list_elem_of_further, list_elem_of_further, list_elem_of_here. }
  split; [exact Hin|].
  exact (channels_share_one_queue quiet [Add orders; Add users; OnStart]
           orders 0 1 Hin).
Defined.

(** X11: at every point of a manager's life, the channel stored for a
    table was cloned for that table from the cached queue and has been
    added to the topic registry. *)
Theorem stored_channels_are_registered E ops :
  let w := (run_ops E ops new_world).2 in
  ∀ t c, _channels (self w) !! t = Some c →
    TopicsAdd c ∈ trace w ∧
    ∃ q, CloneUsingQueue t q c ∈ trace w ∧ _changelog_queue (self w) = Some q.
Proof.
  intros w t c Hc.
  destruct (reachable_wiring_inv E ops) as (H1 & H2 & _). fold w in H1, H2.
  destruct (H2 t c Hc) as (Ha & q & Hcl).
  split; [done|]. exists q. split; [done | by eapply H1].
Qed.

(** A run of [stored_channels_are_registered]: the channel of [users] on a
    started manager with two tables. *)
Lemma stored_channels_are_registered_witness :
  let w := (run_ops quiet [Add orders; Add users; OnStart] new_world).2 in
  _channels (self w) !! users = Some 2 ∧
  TopicsAdd 2 ∈ trace w ∧
  ∃ q, CloneUsingQueue users q 2 ∈ trace w ∧ _changelog_queue (self w) = Some q.
Proof.
  intros w.
  assert (_channels (self w) !! users = Some 2) as Hc
    by (vm_compute; reflexivity).
  split; [exact Hc|].
  exact (stored_channels_are_registered quiet [Add orders; Add users; OnStart]
           users 2 Hc).
Defined.

(** The two, on a manager with two tables that has been started. *)
Example channels_example :
  let w := (run_ops quiet [Add orders; Add users; OnStart] new_world).2 in
  _channels (self w) !! orders = Some 1 ∧
  _channels (self w) !! users = Some 2 ∧
  _changelog_queue (self w) = Some 0 ∧
  trace w
  = [Sleep; FlowControlQueue 0;
     CloneUsingQueue orders 0 1; TopicsAdd 1; MaybeStart orders;
     CloneUsingQueue users 0 2; TopicsAdd 2; MaybeStart users;
     Assignment ∅; PausePartitions ∅; NewRecovery 3; RecoveryStart 3].
Proof. split_and!; vm_compute; reflexivity. Qed.

(** ** Paused partitions stay paused *)

(** X12: on a manager in any state it can reach, the partitions that a
    returning [on_recovery_completed] resumes are disjoint from every set
    of partitions that has ever been paused: recovery completion never
    resumes what channel wiring paused. *)
Theorem paused_never_resumed E ops E' w' :
  let w := (run_ops E ops new_world).2 in
  on_recovery_completed E' w = (Ok tt, w') →
  ∃ pre post tps Y,
    trace w' = trace w ++ pre ++ [Assignment tps; ResumePartitions Y] ++ post ∧
    (∀ Z, ResumePartitions Z ∉ pre ++ post) ∧
    ∀ X, PausePartitions X ∈ trace w' → X ## Y.
Proof.
  intros w Hrun.
  destruct (reachable_wiring_inv E ops) as (_ & _ & Hp). fold w in Hp.
  clearbody w.
  apply on_recovery_completed_Ok in Hrun as (S & HS & _ & Htr).
  cbn zeta in Htr. unfold on_recovery_completed_events in Htr.
  set (tps := consumer_assignment E' _) in Htr.
  assert (Forall is_callback S) as HSk
    by (rewrite HS; apply callback_events_kind).
  exists ([LogInfo "Restore complete!"] ++ S ++
          [LogInfo "Perform seek"; PerformSeek; SetRecoveryCompleted]),
         [FetcherMaybeStart; SetRebalancing false; LogInfo "Worker ready"],
         tps, (filter (λ tp, topic tp ∉ changelog_topics (self w)) tps).
  split_and!.
  - rewrite Htr. by rewrite <- !(assoc_L (++)).
  - intros Z Hin.
    assert (Forall (λ e, e ≠ ResumePartitions Z)
              (([LogInfo "Restore complete!"] ++ S ++
                [LogInfo "Perform seek"; PerformSeek; SetRecoveryCompleted]) ++
               [FetcherMaybeStart; SetRebalancing false; LogInfo "Worker ready"]))
      as HF.
    { repeat first
        [ apply Forall_nil_2 | apply Forall_cons; split; [discriminate|]
        | apply Forall_app; split ].
      eapply Forall_impl; [exact HSk|]. by intros e He ->. }
    rewrite Forall_forall in HF. by apply (HF _ Hin).
  - intros X HX. rewrite Htr in HX.
    assert (PausePartitions X ∈ trace w) as Hold.
    { apply elem_of_app in HX as [HX | HX]; [done|]. exfalso.
      assert (Forall (λ e, e ≠ PausePartitions X)
                ([LogInfo "Restore complete!"] ++ S ++
                 [LogInfo "Perform seek"; PerformSeek; SetRecoveryCompleted;
                  Assignment tps;
                  ResumePartitions
                    (filter (λ tp, topic tp ∉ changelog_topics (self w)) tps);
                  FetcherMaybeStart; SetRebalancing false;
                  LogInfo "Worker ready"])) as HF.
      { repeat first
          [ apply Forall_nil_2 | apply Forall_cons; split; [discriminate|]
          | apply Forall_app; split ].
        eapply Forall_impl; [exact HSk|]. by intros e He ->. }
      rewrite Forall_forall in HF. by apply (HF _ HX). }
    apply elem_of_disjoint. intros tp HtpX [Hnot _]%elem_of_filter.
    apply Hnot. by eapply Hp.
Qed.

(** A run of [paused_never_resumed]: a manager with one table, rebalanced
    with its changelog partition and a live partition assigned, then
    completing recovery. *)
Lemma paused_never_resumed_witness :
  let w := (run_ops two_assigned [Add orders; OnRebalance ∅ ∅ ∅] new_world).2 in
  let w' := (on_recovery_completed two_assigned w).2 in
  on_recovery_completed two_assigned w = (Ok tt, w') ∧
  ∃ pre post tps Y,
    trace w' = trace w ++ pre ++ [Assignment tps; ResumePartitions Y] ++ post ∧
    (∀ Z, ResumePartitions Z ∉ pre ++ post) ∧
    ∀ X, PausePartitions X ∈ trace w' → X ## Y.
Proof.
  intros w w'.
  assert (on_recovery_completed two_assigned w = (Ok tt, w')) as Hrun
    by (vm_compute; reflexivity).
  split; [exact Hrun|].
  exact (paused_never_resumed two_assigned [Add orders; OnRebalance ∅ ∅ ∅]
           two_assigned w' Hrun).
Defined.

(** ** Rebalances after the first *)













(** The second rebalance of that run. *)
Example later_rebalance_example :
  let w := (run_ops two_assigned
              [Add orders; Add users; OnRebalance ∅ ∅ ∅; OnRecoveryCompleted]
              new_world).2 in
  drop (length (trace w)) (trace (on_rebalance two_assigned ∅ ∅ ∅ w).2)
  = [SetRecoveryStarted;
     PartitionsRevoked orders ∅; PartitionsAssigned orders ∅;
     PartitionsRevoked users ∅; PartitionsAssigned users ∅;
     MaybeStart orders; MaybeStart users;
     Assignment {[ ("orders-changelog", 0%Z); ("live", 0%Z) ]};
     PausePartitions {[ ("orders-changelog", 0%Z) ]};
     RecoveryOnRebalance 3 ∅ ∅ ∅].
Proof. vm_compute. reflexivity. Qed.

(** ** From start to stop *)

(** X14: the recovery coordinator that a returning [on_start] started is
    the one that every later [on_stop] stops, whatever was done in
    between: [on_stop] stops the fetcher, then that coordinator, then
    every table.  The collaborators decide how far the run gets: it makes
    these calls one after the other, returns after the last when none of
    them raises, and stops at the first that raises otherwise. *)
Theorem started_coordinator_is_stopped E0 w w1 E ops E' :
  on_start E0 w = (Ok tt, w1) →
  let w2 := (run_ops E ops w1).2 in
  let run := on_stop E' w2 in
  ∃ rec evs,
    last (trace w1) = Some (RecoveryStart rec) ∧
    trace run.2 = trace w2 ++ evs ∧
    run_of ([FetcherStop; RecoveryStop rec] ++ (TableStop <$> values (self w2)))
      tt run.1 evs ∧
    run_under E' (trace w2)
      ([FetcherStop; RecoveryStop rec] ++ (TableStop <$> values (self w2)))
      tt run.1 evs.
Proof.
  intros Hstart w2 run.
  apply on_start_Ok in Hstart as (W & rec & _ & _ & Htr & Hrec & _).
  cbn zeta in Htr.
  apply (cached_recovery_stays E ops) in Hrec. fold w2 in Hrec. clearbody w2.
  destruct (lawful_played _ E' w2 lawful_on_stop)
    as ([] & w0 & evs & Hcalm & Hevs & Hshape & _).
  apply on_stop_Ok in Hcalm as ->.
  destruct (Hshape _ eq_refl) as [Hrun Hunder]. clear Hshape.
  fold run in Hevs, Hrun, Hunder.
  unfold on_stop_calls in Hrun, Hunder. rewrite Hrec in Hrun, Hunder.
  exists rec, evs. split_and!; [| done | done | done].
  rewrite Htr. unfold on_start_events.
  rewrite !(assoc_L (++)). apply last_snoc.
Qed.

(** A run of [started_coordinator_is_stopped]: a manager with one table,
    started, rebalanced and stopped, with collaborators that do not
    raise. *)
Lemma started_coordinator_is_stopped_witness :
  let w := (run_ops quiet [Add orders] new_world).2 in
  let w1 := (on_start quiet w).2 in
  let w2 := (run_ops two_assigned [OnRebalance ∅ ∅ ∅] w1).2 in
  let run := on_stop quiet w2 in
  on_start quiet w = (Ok tt, w1) ∧
  last (trace w1) = Some (RecoveryStart 2) ∧
  run.1 = Ok tt ∧
  trace run.2 = trace w2 ++ [FetcherStop; RecoveryStop 2; TableStop orders].
Proof.
  intros w w1 w2 run.
  assert (on_start quiet w = (Ok tt, w1)) as Hstart
    by (vm_compute; reflexivity).
  split; [exact Hstart|].
  destruct (started_coordinator_is_stopped quiet w w1 two_assigned
              [OnRebalance ∅ ∅ ∅] quiet Hstart)
    as (rec & evs & Hlast & Htr & _ & Hunder).
  fold w2 in Htr, Hunder. fold run in Htr, Hunder.
  apply run_under_calm in Hunder as [Ho Hevs]; [|done].
  assert (last (trace w1) = Some (RecoveryStart 2)) as Hrec
    by (vm_compute; reflexivity).
  rewrite Hrec in Hlast. injection Hlast as <-.
  assert (values (self w2) = [orders]) as Hv by (vm_compute; reflexivity).
  rewrite Hv in Hevs.
  split; [exact Hrec|]. split; [exact Ho|].
  by rewrite Htr, Hevs.
Defined.
